(** * Snake: a shallow embedding of [snake.py] and its specification

    The game logic of [snake.py] (classes [Snake], [Apple] and [Game]) is
    translated method by method.  Python integers are [Z], tuples are
    pairs, lists are [list].  A method is a computation over the state of
    the object it is called on; it can finish, raise [IndexError] (an
    index into an empty list) or wait for random numbers that the finite
    random tape no longer holds (the [while True] loop of [Apple.spawn]
    still running).  Window, font, clock and drawing are left out: no
    modelled method reads anything they write. *)

From Stdlib Require Import ZArith List Bool Lia.
From Stdlib Require String DecimalString.
Import ListNotations.
Local Open Scope Z_scope.

(** ** Game constants *)

Definition WINDOW_WIDTH : Z := 640.
Definition WINDOW_HEIGHT : Z := 480.
Definition CELL_SIZE : Z := 20.
Definition FPS : Z := 10.

Definition Pos : Type := (Z * Z)%type.

Definition UP : Pos := (0, -1).
Definition DOWN : Pos := (0, 1).
Definition LEFT : Pos := (-1, 0).
Definition RIGHT : Pos := (1, 0).

(** Python's [==] on pairs of integers. *)
Definition pos_eqb (p q : Pos) : bool :=
  (fst p =? fst q) && (snd p =? snd q).

(** Python's [p in l] on a list of pairs. *)
Definition mem (p : Pos) (l : list Pos) : bool := existsb (pos_eqb p) l.

(** ** Outcomes and the method monad *)

Inductive outcome (A : Type) : Type :=
| Done (a : A)      (* the call returned *)
| IndexError        (* the call raised IndexError *)
| NoDraw.           (* the random tape ran out while a loop was still sampling *)

Arguments Done {A} a.
Arguments IndexError {A}.
Arguments NoDraw {A}.

Definition M (S A : Type) : Type := S -> outcome (A * S).

Definition ret {S A} (a : A) : M S A := fun s => Done (a, s).

Definition bind {S A B} (c : M S A) (k : A -> M S B) : M S B :=
  fun s =>
    match c s with
    | Done (a, s') => k a s'
    | IndexError => IndexError
    | NoDraw => NoDraw
    end.

Definition get {S} : M S S := fun s => Done (s, s).
Definition put {S} (s : S) : M S unit := fun _ => Done (tt, s).
Definition modify {S} (f : S -> S) : M S unit := fun s => Done (tt, f s).
Definition raise_IndexError {S A} : M S A := fun _ => IndexError.

(** Run a method of a component object inside a method of its owner. *)
Definition zoom {S T A} (proj : S -> T) (upd : T -> S -> S) (c : M T A) : M S A :=
  fun s =>
    match c (proj s) with
    | Done (a, t) => Done (a, upd t s)
    | IndexError => IndexError
    | NoDraw => NoDraw
    end.

Declare Scope method_scope.
Delimit Scope method_scope with method.
Notation "x <- c ;; k" := (bind c (fun x => k))
  (at level 61, c at next level, right associativity) : method_scope.
Notation "c ;; k" := (bind c (fun _ => k))
  (at level 61, right associativity) : method_scope.
Local Open Scope method_scope.

(** [l[0]]: the first element, or IndexError on the empty list. *)
Definition index0 {S A} (l : list A) : M S A :=
  match l with
  | [] => raise_IndexError
  | x :: _ => ret x
  end.

(** [l.pop()] leaves the list without its last element; IndexError on the
    empty list. *)
Definition list_pop {S A} (l : list A) : M S (list A) :=
  match l with
  | [] => raise_IndexError
  | _ :: _ => ret (removelast l)
  end.

(** ** The random module

    The random tape holds the entropy that successive calls of
    [random.randint] consume.  [randint lo hi] returns an integer [n] with
    [lo <= n <= hi]; which one is decided by the next cell of the tape. *)

Definition Rng : Type := list Z.

Definition randint_of (lo hi raw : Z) : Z := lo + raw mod (hi - lo + 1).

Definition randint (lo hi : Z) : M Rng Z :=
  fun rng =>
    match rng with
    | [] => NoDraw
    | raw :: rng' => Done (randint_of lo hi raw, rng')
    end.

(** ** Colours and the screen

    The drawing methods only call pygame; what they do is the sequence of
    those calls, with their arguments.  A text is recorded by its string
    and by where it is put: pygame decides its size from the font. *)

Module Screen.
Import String.

Definition Color : Type := (Z * Z * Z)%type.

(** [pygame.Rect(left, top, width, height)] *)
Definition Rect : Type := (Z * Z * Z * Z)%type.

Inductive Call : Type :=
| Fill (color : Color)
    (* screen.fill(color) *)
| DrawRect (color : Color) (rect : Rect)
    (* pygame.draw.rect(screen, color, rect) *)
| BlitAt (text : string) (color : Color) (topleft : Pos)
    (* screen.blit(font.render(text, True, color), topleft) *)
| BlitCentered (text : string) (color : Color) (center : Pos)
    (* t = font.render(text, True, color); screen.blit(t, t.get_rect(center=center)) *)
| Flip.
    (* pygame.display.flip() *)

(** Python's [str] on an integer. *)
Definition str (n : Z) : string :=
  DecimalString.NilZero.string_of_int (Z.to_int n).

(** [f"Score: {score}"] *)
Definition score_text (score : Z) : string := ("Score: " ++ str score)%string.

Definition game_over_caption : string := "GAME OVER"%string.
Definition restart_caption : string := "Press SPACE to restart"%string.

End Screen.

Definition BLACK : Screen.Color := (0, 0, 0).
Definition GREEN : Screen.Color := (0, 255, 0).
Definition RED : Screen.Color := (255, 0, 0).
Definition WHITE : Screen.Color := (255, 255, 255).

(** ** class Snake *)

Record Snake : Type := mkSnake {
  body : list Pos;
  direction : Pos;
  grow : bool
}.

Definition set_body (b : list Pos) (s : Snake) : Snake :=
  mkSnake b (direction s) (grow s).
Definition set_direction (d : Pos) (s : Snake) : Snake :=
  mkSnake (body s) d (grow s).
Definition set_grow (g : bool) (s : Snake) : Snake :=
  mkSnake (body s) (direction s) g.

Module Snake.

Definition start_x : Z := WINDOW_WIDTH / 2 / CELL_SIZE * CELL_SIZE.
Definition start_y : Z := WINDOW_HEIGHT / 2 / CELL_SIZE * CELL_SIZE.

Definition reset : M Snake unit :=
  modify (set_body [(start_x, start_y)]) ;;
  modify (set_direction RIGHT) ;;
  modify (set_grow false).

(** [Snake()]: [__init__] only calls [reset], which assigns every
    attribute. *)
Definition new : Snake :=
  mkSnake [(start_x, start_y)] RIGHT false.

Definition move : M Snake unit :=
  self <- get ;;
  head <- index0 (body self) ;;
  let '(head_x, head_y) := head in
  let '(dir_x, dir_y) := direction self in
  let new_head := (head_x + dir_x * CELL_SIZE, head_y + dir_y * CELL_SIZE) in
  modify (set_body (new_head :: body self)) ;;
  self <- get ;;
  if negb (grow self) then
    b <- list_pop (body self) ;;
    modify (set_body b)
  else
    modify (set_grow false).

Definition change_direction (new_direction : Pos) : M Snake unit :=
  self <- get ;;
  let opposite := (- fst (direction self), - snd (direction self)) in
  if negb (pos_eqb new_direction opposite) then
    modify (set_direction new_direction)
  else
    ret tt.

Definition check_collision : M Snake bool :=
  self <- get ;;
  head <- index0 (body self) ;;
  if (fst head <? 0) || (fst head >=? WINDOW_WIDTH)
     || (snd head <? 0) || (snd head >=? WINDOW_HEIGHT)
  then ret true
  else if mem head (skipn 1 (body self)) then ret true
  else ret false.

Definition draw (self : Snake) : list Screen.Call :=
  map (fun segment =>
         Screen.DrawRect GREEN (fst segment, snd segment, CELL_SIZE, CELL_SIZE))
      (body self).

End Snake.

(** ** class Apple *)

Record Apple : Type := mkApple { position : Pos }.

Module Apple.

(** One pass of the body of [while True]: two draws, the assignment to
    [self.position], and the test that leaves the loop. *)
Fixpoint spawn_loop (snake_body : list Pos) (rng : Rng) : outcome (unit * (Apple * Rng)) :=
  match rng with
  | raw_x :: raw_y :: rng' =>
      let x := randint_of 0 ((WINDOW_WIDTH - CELL_SIZE) / CELL_SIZE) raw_x * CELL_SIZE in
      let y := randint_of 0 ((WINDOW_HEIGHT - CELL_SIZE) / CELL_SIZE) raw_y * CELL_SIZE in
      if negb (mem (x, y) snake_body) then Done (tt, (mkApple (x, y), rng'))
      else spawn_loop snake_body rng'
  | _ => NoDraw
  end.

Definition spawn (snake_body : option (list Pos)) : M (Apple * Rng) unit :=
  let snake_body := match snake_body with None => [] | Some b => b end in
  fun '(_, rng) => spawn_loop snake_body rng.

(** [Apple()]: [position] is set to [(0, 0)], then [spawn()] is called
    without an argument. *)
Definition new : M Rng Apple :=
  fun rng =>
    match spawn None (mkApple (0, 0), rng) with
    | Done (_, (self, rng')) => Done (self, rng')
    | IndexError => IndexError
    | NoDraw => NoDraw
    end.

Definition draw (self : Apple) : list Screen.Call :=
  [Screen.DrawRect RED
     (fst (position self), snd (position self), CELL_SIZE, CELL_SIZE)].

End Apple.

(** ** class Game *)

Record Game : Type := mkGame {
  snake : Snake;
  apple : Apple;
  score : Z;
  game_over : bool
}.

Definition set_snake (s : Snake) (g : Game) : Game :=
  mkGame s (apple g) (score g) (game_over g).
Definition set_apple (a : Apple) (g : Game) : Game :=
  mkGame (snake g) a (score g) (game_over g).
Definition set_score (n : Z) (g : Game) : Game :=
  mkGame (snake g) (apple g) n (game_over g).
Definition set_game_over (b : bool) (g : Game) : Game :=
  mkGame (snake g) (apple g) (score g) b.

(** The keys and events that [handle_events] tells apart. *)
Inductive Key : Type :=
| K_UP | K_DOWN | K_LEFT | K_RIGHT
| K_w | K_s | K_a | K_d
| K_SPACE | K_ESCAPE
| K_other (code : Z).

Inductive Event : Type :=
| QUIT
| KEYDOWN (key : Key)
| OTHER_EVENT.

(** A [Game] method runs over the game object and the random module. *)
Definition World : Type := (Game * Rng)%type.

Definition self_ : M World Game := fun w => Done (fst w, w).
Definition on_self (f : Game -> Game) : M World unit :=
  fun w => Done (tt, (f (fst w), snd w)).

(** [self.snake.m(...)] *)
Definition on_snake {A} (c : M Snake A) : M World A :=
  zoom (fun w => snake (fst w)) (fun s w => (set_snake s (fst w), snd w)) c.

(** [self.apple.m(...)]: the apple's methods also read the random module. *)
Definition on_apple {A} (c : M (Apple * Rng) A) : M World A :=
  zoom (fun w => (apple (fst w), snd w))
       (fun ar w => (set_apple (fst ar) (fst w), snd ar)) c.

(** A constructor that reads the random module only. *)
Definition on_rng {A} (c : M Rng A) : M World A :=
  zoom (fun w => snd w) (fun r w => (fst w, r)) c.

Module Game.

Definition reset : M World unit :=
  on_self (set_snake Snake.new) ;;
  a <- on_rng Apple.new ;;
  on_self (set_apple a) ;;
  self <- self_ ;;
  on_apple (Apple.spawn (Some (body (snake self)))) ;;
  on_self (set_score 0) ;;
  on_self (set_game_over false).

(** The attributes of a game object before [__init__] has called
    [reset]; [reset] assigns each of them before reading it. *)
Definition blank : Game :=
  mkGame (mkSnake [] (0, 0) false) (mkApple (0, 0)) 0 false.

(** [Game()], without the window, clock and font. *)
Definition new : M Rng Game :=
  fun rng =>
    match reset (blank, rng) with
    | Done (_, (self, rng')) => Done (self, rng')
    | IndexError => IndexError
    | NoDraw => NoDraw
    end.

(** [events] is what [pygame.event.get()] returns for this frame. *)
Fixpoint handle_events (events : list Event) : M World bool :=
  match events with
  | [] => ret true
  | event :: events' =>
      match event with
      | QUIT => ret false
      | KEYDOWN key =>
          self <- self_ ;;
          if game_over self then
            match key with
            | K_SPACE => reset ;; handle_events events'
            | K_ESCAPE => ret false
            | _ => handle_events events'
            end
          else
            match key with
            | K_UP | K_w =>
                on_snake (Snake.change_direction UP) ;; handle_events events'
            | K_DOWN | K_s =>
                on_snake (Snake.change_direction DOWN) ;; handle_events events'
            | K_LEFT | K_a =>
                on_snake (Snake.change_direction LEFT) ;; handle_events events'
            | K_RIGHT | K_d =>
                on_snake (Snake.change_direction RIGHT) ;; handle_events events'
            | K_ESCAPE => ret false
            | _ => handle_events events'
            end
      | OTHER_EVENT => handle_events events'
      end
  end.

Definition update : M World unit :=
  self <- self_ ;;
  if game_over self then ret tt
  else
    on_snake Snake.move ;;
    self <- self_ ;;
    head <- index0 (body (snake self)) ;;
    (if pos_eqb head (position (apple self)) then
       on_snake (modify (set_grow true)) ;;
       on_self (fun g => set_score (score g + 1) g) ;;
       self <- self_ ;;
       on_apple (Apple.spawn (Some (body (snake self))))
     else ret tt) ;;
    collided <- on_snake Snake.check_collision ;;
    if collided then on_self (set_game_over true) else ret tt.

(** [run], one list of events per frame.  The value returned is the log
    of the headings with which [Snake.move] was entered, oldest first;
    drawing and frame pacing change no modelled state.  The loop ends
    when [handle_events] has returned [False] (after that frame's
    [update]) or when the frames run out. *)
Fixpoint run (frames : list (list Event)) : M World (list Pos) :=
  match frames with
  | [] => ret []
  | events :: frames' =>
      running <- handle_events events ;;
      self <- self_ ;;
      let used := if game_over self then [] else [direction (snake self)] in
      update ;;
      if running : bool then
        later <- run frames' ;;
        ret (used ++ later)
      else ret used
  end.

Definition draw (self : Game) : list Screen.Call :=
  [Screen.Fill BLACK]
  ++ Snake.draw (snake self)
  ++ Apple.draw (apple self)
  ++ [Screen.BlitAt (Screen.score_text (score self)) WHITE (10, 10)]
  ++ (if game_over self then
        [Screen.BlitCentered Screen.game_over_caption WHITE
           (WINDOW_WIDTH / 2, WINDOW_HEIGHT / 2 - 20);
         Screen.BlitCentered Screen.restart_caption WHITE
           (WINDOW_WIDTH / 2, WINDOW_HEIGHT / 2 + 20)]
      else [])
  ++ [Screen.Flip].

End Game.

(** [main]: [Game()] and [run], over the frames that arrive. *)
Definition main (frames : list (list Event)) : M Rng (list Pos) :=
  fun rng =>
    match Game.new rng with
    | Done (game, rng') =>
        match Game.run frames (game, rng') with
        | Done (headings, (_, rng'')) => Done (headings, rng'')
        | IndexError => IndexError
        | NoDraw => NoDraw
        end
    | IndexError => IndexError
    | NoDraw => NoDraw
    end.

(** * Vocabulary of the properties *)

(** A cell of the board: grid-aligned and inside the window. *)
Definition on_grid (p : Pos) : Prop :=
  fst p mod CELL_SIZE = 0 /\ snd p mod CELL_SIZE = 0 /\
  0 <= fst p < WINDOW_WIDTH /\ 0 <= snd p < WINDOW_HEIGHT.

(** The sample that one pass of the loop of [Apple.spawn] builds from two
    cells of the tape. *)
Definition sample (raw_x raw_y : Z) : Pos :=
  (randint_of 0 ((WINDOW_WIDTH - CELL_SIZE) / CELL_SIZE) raw_x * CELL_SIZE,
   randint_of 0 ((WINDOW_HEIGHT - CELL_SIZE) / CELL_SIZE) raw_y * CELL_SIZE).

(** The random tape as the passes of the loop see it: rejected samples
    first, in pairs of draws. *)
Fixpoint rejected (snake_body : list Pos) (draws : list (Z * Z)) : bool :=
  match draws with
  | [] => true
  | (rx, ry) :: draws' => mem (sample rx ry) snake_body && rejected snake_body draws'
  end.

Fixpoint flatten (draws : list (Z * Z)) : Rng :=
  match draws with
  | [] => []
  | (rx, ry) :: draws' => rx :: ry :: flatten draws'
  end.

(** The cell one step from [h] along the heading [d]. *)
Definition step_from (h d : Pos) : Pos :=
  (fst h + fst d * CELL_SIZE, snd h + snd d * CELL_SIZE).

Definition off_board (p : Pos) : Prop :=
  fst p < 0 \/ WINDOW_WIDTH <= fst p \/ snd p < 0 \/ WINDOW_HEIGHT <= snd p.

Definition off_boardb (p : Pos) : bool :=
  (fst p <? 0) || (fst p >=? WINDOW_WIDTH)
  || (snd p <? 0) || (snd p >=? WINDOW_HEIGHT).

(** The games that the program can be in between two calls: the one that
    [Game()] builds, and those that [handle_events] and [update] return
    from a reachable one, whatever the events and the random tape. *)
Inductive reachable : Game -> Prop :=
| reach_new (rng : Rng) (g : Game) (rng' : Rng) :
    Game.new rng = Done (g, rng') -> reachable g
| reach_events (g : Game) (rng : Rng) (events : list Event) (running : bool)
               (g' : Game) (rng' : Rng) :
    reachable g ->
    Game.handle_events events (g, rng) = Done (running, (g', rng')) ->
    reachable g'
| reach_update (g : Game) (rng : Rng) (g' : Game) (rng' : Rng) :
    reachable g ->
    Game.update (g, rng) = Done (tt, (g', rng')) ->
    reachable g'.

Definition apple_off_snake (g : Game) : Prop :=
  ~ In (position (apple g)) (body (snake g)).

Definition opposite (d : Pos) : Pos := (- fst d, - snd d).

(** Does some heading of the log reverse the one just before it? *)
Fixpoint reverses (headings : list Pos) : bool :=
  match headings with
  | d1 :: ((d2 :: _) as later) => pos_eqb d2 (opposite d1) || reverses later
  | _ => false
  end.

(** The four headings that [handle_events] can ask for. *)
Definition unit_heading (d : Pos) : Prop :=
  d = UP \/ d = DOWN \/ d = LEFT \/ d = RIGHT.

Definition aligned (p : Pos) : Prop :=
  fst p mod CELL_SIZE = 0 /\ snd p mod CELL_SIZE = 0.

(** Each cell of the body is one step from the cell behind it. *)
Fixpoint chain (cells : list Pos) : Prop :=
  match cells with
  | p :: ((q :: _) as behind) =>
      (exists d, unit_heading d /\ p = step_from q d) /\ chain behind
  | _ => True
  end.

(** The 32 x 24 cells of the board. *)
Definition all_cells : list Pos :=
  map (fun ij => (Z.of_nat (fst ij) * CELL_SIZE, Z.of_nat (snd ij) * CELL_SIZE))
      (list_prod (seq 0 32) (seq 0 24)).

(** The events that make [handle_events] return [False]. *)
Definition quits (e : Event) : bool :=
  match e with
  | QUIT | KEYDOWN K_ESCAPE => true
  | _ => false
  end.

Definition restarts (e : Event) : bool :=
  match e with
  | KEYDOWN K_SPACE => true
  | _ => false
  end.

(** The heading that a key-down event asks for, if any. *)
Definition turn_of (e : Event) : option Pos :=
  match e with
  | KEYDOWN K_UP | KEYDOWN K_w => Some UP
  | KEYDOWN K_DOWN | KEYDOWN K_s => Some DOWN
  | KEYDOWN K_LEFT | KEYDOWN K_a => Some LEFT
  | KEYDOWN K_RIGHT | KEYDOWN K_d => Some RIGHT
  | _ => None
  end.

Definition turns (events : list Event) : nat :=
  length (filter (fun e => match turn_of e with Some _ => true | None => false end)
                 events).

(** A rectangle that lies inside the window. *)
Definition in_window (r : Screen.Rect) : Prop :=
  let '(x, y, w, h) := r in
  0 <= x /\ x + w <= WINDOW_WIDTH /\ 0 <= y /\ y + h <= WINDOW_HEIGHT.

(** [move()] called [n] times in a row. *)
Fixpoint moves (n : nat) : M Snake unit :=
  match n with
  | O => ret tt
  | Datatypes.S n' => Snake.move ;; moves n'
  end.

(** A call that returned. *)
Definition returns {A} (o : outcome A) : Prop := exists a, o = Done a.

(** A tour of the board, in cells (column, row): along row 0 to the right,
    then to and fro over rows 1 to 23 in columns 1 to 31, then up column 0
    back to the start.  It passes every cell once and closes on itself;
    row 12 is run through to the right. *)
Definition tour_next (c : Z * Z) : Z * Z :=
  let '(i, j) := c in
  if j =? 0 then (if i <? 31 then (i + 1, 0) else (31, 1))
  else if i =? 0 then (0, j - 1)
  else if Z.odd j then
    (if 1 <? i then (i - 1, j) else if j =? 23 then (0, 23) else (1, j + 1))
  else (if i <? 31 then (i + 1, j) else (31, j + 1)).

(** The direction key that turns the snake from cell [c] towards the
    neighbouring cell [c']. *)
Definition key_towards (c c' : Z * Z) : Key :=
  if fst c <? fst c' then K_RIGHT
  else if fst c' <? fst c then K_LEFT
  else if snd c <? snd c' then K_DOWN
  else K_UP.

(** [n] frames of a player who follows the tour from cell [c]: each frame
    brings the key towards the next cell of the tour, and the random
    module happens to draw, for the respawn of that frame, the cell after
    it. *)
Fixpoint follow_tour (n : nat) (c : Z * Z) (w : World) : outcome (unit * World) :=
  match n with
  | O => Done (tt, w)
  | Datatypes.S n' =>
      let c1 := tour_next c in
      let c2 := tour_next c1 in
      match Game.handle_events [KEYDOWN (key_towards c c1)] w with
      | Done (_, (g, _)) =>
          match Game.update (g, [fst c2; snd c2]) with
          | Done (_, w') => follow_tour n' c1 w'
          | IndexError => IndexError
          | NoDraw => NoDraw
          end
      | IndexError => IndexError
      | NoDraw => NoDraw
      end
  end.

(** The game after 767 such frames from program start, the first apple
    having been drawn on the cell right of the snake. *)
Definition full_board_game : outcome (unit * World) :=
  match Game.new [0; 0; 17; 12] with
  | Done (g, _) => follow_tour 767 (16, 12) (g, [])
  | IndexError => IndexError
  | NoDraw => NoDraw
  end.

(** Does the next [update] eat the apple and leave no cell of the board
    free? *)
Definition fills_board (g : Game) : bool :=
  negb (game_over g) && grow (snake g) &&
  match body (snake g) with
  | [] => false
  | h :: t =>
      let nh := step_from h (direction (snake g)) in
      pos_eqb nh (position (apple g)) &&
      forallb (fun c => mem c (nh :: h :: t)) all_cells
  end.

(** The game that [full_board_game] ends in: 767 body cells along the
    tour, growth pending, the apple on the one cell that is left. *)
Definition full_game : Game :=
  Eval vm_compute in
    match full_board_game with
    | Done (_, (g, _)) => g
    | _ => Game.blank
    end.

(** What the later properties keep together about a game. *)
Definition well_formed (g : Game) : Prop :=
  unit_heading (direction (snake g)) /\
  Z.of_nat (length (body (snake g))) + (if grow (snake g) then 1 else 0)
    = score g + 1 /\
  on_grid (position (apple g)) /\
  chain (body (snake g)) /\
  Forall aligned (body (snake g)) /\
  (game_over g = false ->
     Forall on_grid (body (snake g)) /\ NoDup (body (snake g))).

(** * Properties *)

(** ** Positions, membership, random draws *)

(** Induction over a tape two draws at a time, as the loop of
    [Apple.spawn] reads it. *)
Lemma tape_pair_ind (P : Rng -> Prop) :
  P [] -> (forall r, P [r]) ->
  (forall rx ry rest, P rest -> P (rx :: ry :: rest)) ->
  forall rng, P rng.
Proof.
  intros H0 H1 H2.
  assert (Hboth : forall rng, P rng /\ forall r, P (r :: rng)).
  { induction rng as [|r rng [IH0 IH1]]; split; auto. }
  intros rng. apply Hboth.
Qed.

Lemma pos_eqb_eq (p q : Pos) : pos_eqb p q = true <-> p = q.
Proof.
  destruct p as [px py], q as [qx qy]; unfold pos_eqb; simpl.
  rewrite andb_true_iff, !Z.eqb_eq. split.
  - intros [-> ->]; reflexivity.
  - intros E; inversion E; auto.
Qed.

Lemma pos_eqb_neq (p q : Pos) : pos_eqb p q = false <-> p <> q.
Proof.
  rewrite <- pos_eqb_eq. destruct (pos_eqb p q); split; congruence.
Qed.

Lemma mem_In (p : Pos) (l : list Pos) : mem p l = true <-> In p l.
Proof.
  unfold mem. rewrite existsb_exists. split.
  - intros [q [Hq E]]. apply pos_eqb_eq in E. subst q. exact Hq.
  - intros H. exists p. split; [exact H | apply pos_eqb_eq; reflexivity].
Qed.

Lemma mem_not_In (p : Pos) (l : list Pos) : mem p l = false <-> ~ In p l.
Proof.
  rewrite <- mem_In. destruct (mem p l); split; congruence.
Qed.

Lemma randint_of_range (lo hi raw : Z) :
  lo <= hi -> lo <= randint_of lo hi raw <= hi.
Proof.
  intros H. unfold randint_of.
  pose proof (Z.mod_pos_bound raw (hi - lo + 1)). lia.
Qed.

(** Every integer of the range is drawn from some tape. *)
Lemma randint_of_onto (lo hi n : Z) :
  lo <= n <= hi -> randint_of lo hi (n - lo) = n.
Proof.
  intros H. unfold randint_of. rewrite Z.mod_small; lia.
Qed.

Lemma last_column_nonneg : 0 <= (WINDOW_WIDTH - CELL_SIZE) / CELL_SIZE.
Proof. discriminate. Qed.

Lemma last_row_nonneg : 0 <= (WINDOW_HEIGHT - CELL_SIZE) / CELL_SIZE.
Proof. discriminate. Qed.

Lemma sample_on_grid (raw_x raw_y : Z) : on_grid (sample raw_x raw_y).
Proof.
  unfold on_grid, sample; cbn [fst snd].
  pose proof (randint_of_range 0 ((WINDOW_WIDTH - CELL_SIZE) / CELL_SIZE) raw_x
                last_column_nonneg) as Hx.
  pose proof (randint_of_range 0 ((WINDOW_HEIGHT - CELL_SIZE) / CELL_SIZE) raw_y
                last_row_nonneg) as Hy.
  change ((WINDOW_WIDTH - CELL_SIZE) / CELL_SIZE) with 31 in *.
  change ((WINDOW_HEIGHT - CELL_SIZE) / CELL_SIZE) with 23 in *.
  unfold CELL_SIZE, WINDOW_WIDTH, WINDOW_HEIGHT.
  rewrite !Z.mod_mul by lia. lia.
Qed.

(** Every cell of the board is the sample of some two draws. *)
Lemma sample_onto (p : Pos) :
  on_grid p -> sample (fst p / CELL_SIZE) (snd p / CELL_SIZE) = p.
Proof.
  destruct p as [x y]. unfold on_grid, sample; cbn [fst snd].
  change ((WINDOW_WIDTH - CELL_SIZE) / CELL_SIZE) with 31.
  change ((WINDOW_HEIGHT - CELL_SIZE) / CELL_SIZE) with 23.
  unfold CELL_SIZE, WINDOW_WIDTH, WINDOW_HEIGHT.
  intros (Hx & Hy & Bx & By).
  pose proof (Z.div_mod x 20 ltac:(lia)) as Dx.
  pose proof (Z.div_mod y 20 ltac:(lia)) as Dy.
  rewrite Hx in Dx. rewrite Hy in Dy.
  unfold randint_of. rewrite !Z.mod_small by lia. f_equal; lia.
Qed.

(** The body of the loop of [Apple.spawn], as the two [randint] calls of
    the source. *)
Lemma spawn_loop_pass (snake_body : list Pos) (rng : Rng) :
  Apple.spawn_loop snake_body rng =
  match (x <- randint 0 ((WINDOW_WIDTH - CELL_SIZE) / CELL_SIZE) ;;
         y <- randint 0 ((WINDOW_HEIGHT - CELL_SIZE) / CELL_SIZE) ;;
         ret (x * CELL_SIZE, y * CELL_SIZE)) rng with
  | Done (p, rng') =>
      if negb (mem p snake_body) then Done (tt, (mkApple p, rng'))
      else Apple.spawn_loop snake_body rng'
  | IndexError => IndexError
  | NoDraw => NoDraw
  end.
Proof.
  destruct rng as [|rx [|ry rng']]; reflexivity.
Qed.

Lemma spawn_loop_cons (snake_body : list Pos) (rx ry : Z) (rng : Rng) :
  Apple.spawn_loop snake_body (rx :: ry :: rng) =
  if mem (sample rx ry) snake_body then Apple.spawn_loop snake_body rng
  else Done (tt, (mkApple (sample rx ry), rng)).
Proof.
  unfold sample. cbn [Apple.spawn_loop].
  destruct (mem _ snake_body); reflexivity.
Qed.

Lemma spawn_loop_accepts (snake_body : list Pos) (draws : list (Z * Z))
      (rx ry : Z) (rest : Rng) :
  rejected snake_body draws = true ->
  mem (sample rx ry) snake_body = false ->
  Apple.spawn_loop snake_body (flatten draws ++ rx :: ry :: rest)
  = Done (tt, (mkApple (sample rx ry), rest)).
Proof.
  intros Hrej Hfree. induction draws as [|[ax ay] draws IH].
  - cbn [flatten app]. rewrite spawn_loop_cons, Hfree. reflexivity.
  - cbn [rejected] in Hrej. apply andb_true_iff in Hrej as [Hocc Hrej].
    cbn [flatten app]. rewrite spawn_loop_cons, Hocc. apply IH, Hrej.
Qed.

Lemma spawn_loop_sound (snake_body : list Pos) (rng : Rng) (a : Apple) (rng' : Rng) :
  Apple.spawn_loop snake_body rng = Done (tt, (a, rng')) ->
  on_grid (position a) /\ ~ In (position a) snake_body.
Proof.
  induction rng as [|r|rx ry rest IH] using tape_pair_ind; try discriminate.
  rewrite spawn_loop_cons.
  destruct (mem (sample rx ry) snake_body) eqn:E; [exact IH|].
  intros H. inversion H; subst; cbn [position].
  split; [apply sample_on_grid | apply mem_not_In, E].
Qed.

(** A tape on which [spawn] returns is made of rejected samples, the
    accepted sample, and the tape that is left over. *)
Lemma spawn_loop_consumes (snake_body : list Pos) (rng : Rng) (a : Apple) (rng' : Rng) :
  Apple.spawn_loop snake_body rng = Done (tt, (a, rng')) ->
  exists draws rx ry,
    rng = flatten draws ++ rx :: ry :: rng' /\
    rejected snake_body draws = true /\
    mem (sample rx ry) snake_body = false /\
    position a = sample rx ry.
Proof.
  induction rng as [|r|rx ry rest IH] using tape_pair_ind; try discriminate.
  rewrite spawn_loop_cons.
  destruct (mem (sample rx ry) snake_body) eqn:E; intros H.
  - destruct (IH H) as (draws & ax & ay & -> & Hrej & Hfree & Hpos).
    exists ((rx, ry) :: draws), ax, ay. cbn [flatten app rejected].
    rewrite E, Hrej. auto.
  - inversion H; subst. exists [], rx, ry. auto.
Qed.

(** ** The snake *)

Lemma off_boardb_spec (p : Pos) : off_boardb p = true <-> off_board p.
Proof.
  unfold off_boardb, off_board.
  rewrite !orb_true_iff, !Z.ltb_lt, !Z.geb_le. tauto.
Qed.

Lemma reset_is_new (s : Snake) : Snake.reset s = Done (tt, Snake.new).
Proof. reflexivity. Qed.

Lemma move_cons (h : Pos) (t : list Pos) (d : Pos) (g : bool) :
  Snake.move (mkSnake (h :: t) d g) =
  Done (tt, mkSnake (step_from h d :: if g then h :: t else removelast (h :: t))
                    d false).
Proof.
  destruct h as [hx hy], d as [dx dy], g; reflexivity.
Qed.

Lemma move_empty (d : Pos) (g : bool) : Snake.move (mkSnake [] d g) = IndexError.
Proof. reflexivity. Qed.

Lemma check_collision_cons (h : Pos) (t : list Pos) (d : Pos) (g : bool) :
  Snake.check_collision (mkSnake (h :: t) d g) =
  Done (off_boardb h || mem h t, mkSnake (h :: t) d g).
Proof.
  unfold Snake.check_collision, bind, get, index0, ret; cbn [body skipn].
  fold (off_boardb h). destruct (off_boardb h); [reflexivity|].
  destruct (mem h t); reflexivity.
Qed.

Lemma change_direction_run (d : Pos) (s : Snake) :
  Snake.change_direction d s =
  Done (tt, if pos_eqb d (- fst (direction s), - snd (direction s))
            then s else set_direction d s).
Proof.
  unfold Snake.change_direction, bind, get, modify, ret.
  destruct (pos_eqb d _); reflexivity.
Qed.

Lemma removelast_length {A} (x : A) (l : list A) :
  length (removelast (x :: l)) = length l.
Proof.
  revert x. induction l as [|y l IH]; intros x; [reflexivity|].
  change (removelast (x :: y :: l)) with (x :: removelast (y :: l)).
  cbn [length]. rewrite IH. reflexivity.
Qed.

Lemma In_removelast {A} (x : A) (l : list A) : In x (removelast l) -> In x l.
Proof.
  induction l as [|y l IH]; [auto|].
  destruct l as [|z l]; [intros []|].
  change (removelast (y :: z :: l)) with (y :: removelast (z :: l)).
  intros [E | H]; [left; exact E | right; apply IH, H].
Qed.

(** C2. [move] enters the new head, the old head moved by one cell along
    the heading, at the front of the body.  With the growth flag clear the
    last element is then removed and the length is unchanged; with the
    flag set the tail is kept, the length grows by one and the flag is
    cleared.  The heading is not touched. *)
Theorem move_shifts_or_grows (s : Snake) (h : Pos) (t : list Pos) :
  body s = h :: t ->
  exists s',
    Snake.move s = Done (tt, s') /\
    hd_error (body s') = Some (step_from h (direction s)) /\
    direction s' = direction s /\
    grow s' = false /\
    (grow s = false ->
       body s' = removelast (step_from h (direction s) :: body s) /\
       length (body s') = length (body s)) /\
    (grow s = true ->
       body s' = step_from h (direction s) :: body s /\
       length (body s') = Datatypes.S (length (body s))).
Proof.
  destruct s as [b d g]; cbn [body direction grow]. intros ->.
  rewrite move_cons. eexists; split; [reflexivity|].
  cbn [body direction grow]. destruct g.
  - repeat split; try reflexivity; discriminate.
  - repeat split; try reflexivity; try discriminate.
    cbn [length]. f_equal. apply removelast_length.
Qed.

Lemma move_shifts_or_grows_witness :
  Snake.move (mkSnake [(320, 240); (300, 240)] UP true)
    = Done (tt, mkSnake [(320, 220); (320, 240); (300, 240)] UP false) /\
  Snake.move (mkSnake [(320, 240); (300, 240)] UP false)
    = Done (tt, mkSnake [(320, 220); (320, 240)] UP false) /\
  exists s', Snake.move Snake.new = Done (tt, s') /\
             hd_error (body s') = Some (340, 240).
Proof.
  split; [reflexivity|]. split; [reflexivity|].
  destruct (move_shifts_or_grows Snake.new (320, 240) [] eq_refl)
    as (s' & Hmove & Hhd & _).
  exists s'. split; [exact Hmove | exact Hhd].
Defined.

(** C3. [check_collision] answers true exactly when the head is off the
    board ([x] outside [0, WINDOW_WIDTH) or [y] outside
    [0, WINDOW_HEIGHT)) or equals a body element at index 1 or later; it
    answers false for a freshly reset snake; the snake is left as it was. *)
Theorem check_collision_iff (s : Snake) (h : Pos) (t : list Pos) :
  body s = h :: t ->
  (exists b,
     Snake.check_collision s = Done (b, s) /\
     (b = true <->
      off_board h \/
      exists i, (1 <= i)%nat /\ nth_error (body s) i = Some h)) /\
  Snake.check_collision Snake.new = Done (false, Snake.new) /\
  (forall s0 s1, Snake.reset s0 = Done (tt, s1) ->
     Snake.check_collision s1 = Done (false, s1)).
Proof.
  destruct s as [b d g]; cbn [body]. intros ->.
  split; [|split; [reflexivity|]].
  - rewrite check_collision_cons. eexists; split; [reflexivity|].
    rewrite orb_true_iff, off_boardb_spec, mem_In. split.
    + intros [H | H]; [left; exact H | right].
      apply In_nth_error in H as [n Hn].
      exists (Datatypes.S n). split; [lia | exact Hn].
    + intros [H | (i & Hi & Hn)]; [left; exact H | right].
      destruct i as [|n]; [lia|]. cbn [nth_error] in Hn.
      eapply nth_error_In, Hn.
  - intros s0 s1 H. rewrite reset_is_new in H. inversion H; reflexivity.
Qed.

Lemma check_collision_iff_witness :
  Snake.check_collision (mkSnake [(300, 240); (320, 240); (300, 240)] LEFT false)
    = Done (true, mkSnake [(300, 240); (320, 240); (300, 240)] LEFT false) /\
  Snake.check_collision (mkSnake [(640, 240)] RIGHT false)
    = Done (true, mkSnake [(640, 240)] RIGHT false) /\
  Snake.check_collision Snake.new = Done (false, Snake.new).
Proof.
  split; [reflexivity|]. split; [reflexivity|].
  exact (proj1 (proj2 (check_collision_iff Snake.new (320, 240) [] eq_refl))).
Defined.

(** C8. [change_direction d] returns without an error; it leaves the
    snake as it was when [d] is the exact opposite of the heading, and
    otherwise sets the heading to [d], body and growth flag untouched. *)
Theorem change_direction_rejects_opposite (s : Snake) (d : Pos) :
  exists s',
    Snake.change_direction d s = Done (tt, s') /\
    body s' = body s /\ grow s' = grow s /\
    (d = (- fst (direction s), - snd (direction s)) -> s' = s) /\
    (d <> (- fst (direction s), - snd (direction s)) -> direction s' = d).
Proof.
  rewrite change_direction_run. eexists; split; [reflexivity|].
  destruct (pos_eqb d _) eqn:E.
  - apply pos_eqb_eq in E. repeat split; auto. intros N; contradiction.
  - apply pos_eqb_neq in E. repeat split; auto. intros N; contradiction.
Qed.

Lemma change_direction_rejects_opposite_witness :
  Snake.change_direction LEFT Snake.new = Done (tt, Snake.new) /\
  Snake.change_direction UP Snake.new = Done (tt, set_direction UP Snake.new).
Proof.
  split.
  - destruct (change_direction_rejects_opposite Snake.new LEFT)
      as (s' & Hrun & _ & _ & Hsame & _).
    rewrite Hrun, (Hsame eq_refl). reflexivity.
  - reflexivity.
Defined.

(** ** The apple *)

(** C4. When [spawn(occupied)] returns, the apple is on a cell of the
    board (both coordinates multiples of the cell size, inside the window)
    that is not an element of [occupied].  Whenever [occupied] leaves a
    cell [c] free, [spawn] does return on every tape that draws [c] after
    rejected samples only, with the apple on [c].  Without an argument
    [spawn] runs as with the empty list. *)
Theorem spawn_avoids_occupied (occupied : list Pos) (self : Apple) (rng : Rng) :
  (forall self' rng',
     Apple.spawn (Some occupied) (self, rng) = Done (tt, (self', rng')) ->
     on_grid (position self') /\ ~ In (position self') occupied) /\
  (forall c draws rest,
     on_grid c -> ~ In c occupied -> rejected occupied draws = true ->
     Apple.spawn (Some occupied)
       (self, flatten draws ++ fst c / CELL_SIZE :: snd c / CELL_SIZE :: rest)
     = Done (tt, (mkApple c, rest))) /\
  Apple.spawn None (self, rng) = Apple.spawn (Some []) (self, rng).
Proof.
  split; [|split; [|reflexivity]].
  - intros self' rng' H. exact (spawn_loop_sound _ _ _ _ H).
  - intros c draws rest Hc Hfree Hrej. cbn [Apple.spawn].
    rewrite <- (sample_onto c Hc) at 3.
    apply spawn_loop_accepts; [exact Hrej|].
    rewrite sample_onto by exact Hc. apply mem_not_In, Hfree.
Qed.

Lemma spawn_avoids_occupied_witness :
  Apple.spawn (Some [(320, 240); (300, 240)]) (mkApple (0, 0), [16; 12; 47; 36; 5; 7; 9])
    = Done (tt, (mkApple (100, 140), [9])) /\
  on_grid (100, 140) /\ ~ In (100, 140) [(320, 240); (300, 240)].
Proof.
  pose proof (spawn_avoids_occupied [(320, 240); (300, 240)] (mkApple (0, 0))
                [16; 12; 47; 36; 5; 7; 9]) as (Hsound & Hruns & _).
  assert (Hgrid : on_grid (100, 140)) by (vm_compute; repeat split; discriminate).
  assert (Hfree : ~ In (100, 140) [(320, 240); (300, 240)])
    by (intros [E | [E | []]]; discriminate).
  split; [|split; [exact Hgrid | exact Hfree]].
  exact (Hruns (100, 140) [(16, 12); (47, 36)] [9] Hgrid Hfree eq_refl).
Defined.

(** ** The game *)

Lemma reset_run (g : Game) (rng : Rng) :
  Game.reset (g, rng) =
  match rng with
  | _ :: _ :: rng1 =>
      match Apple.spawn_loop (body Snake.new) rng1 with
      | Done (_, (a, rng2)) => Done (tt, (mkGame Snake.new a 0 false, rng2))
      | IndexError => IndexError
      | NoDraw => NoDraw
      end
  | _ => NoDraw
  end.
Proof.
  destruct rng as [|r0 [|r1 rng1]]; try reflexivity.
  unfold Game.reset, bind, on_self, on_rng, on_apple, self_, zoom, Apple.new.
  cbn [fst snd Apple.spawn]. rewrite spawn_loop_cons. cbn [mem existsb].
  cbn [fst snd set_snake set_apple snake apple body Snake.new].
  destruct (Apple.spawn_loop _ rng1) as [[[] [a rng2]]| |]; reflexivity.
Qed.

Lemma new_is_reset (g : Game) (rng : Rng) :
  Game.new rng =
  match Game.reset (g, rng) with
  | Done (_, (self, rng')) => Done (self, rng')
  | IndexError => IndexError
  | NoDraw => NoDraw
  end.
Proof.
  unfold Game.new. rewrite !reset_run. reflexivity.
Qed.

Lemma restart_is_reset (g : Game) (rng : Rng) :
  game_over g = true ->
  Game.handle_events [KEYDOWN K_SPACE] (g, rng) =
  match Game.reset (g, rng) with
  | Done (_, w) => Done (true, w)
  | IndexError => IndexError
  | NoDraw => NoDraw
  end.
Proof.
  intros H. cbn [Game.handle_events]. unfold bind at 1, self_ at 1.
  cbn [fst]. rewrite H. unfold bind.
  destruct (Game.reset (g, rng)) as [[[] w]| |]; reflexivity.
Qed.

(** The state of a game in the Playing state after one [update], from the
    pieces of the state before. *)
Lemma update_playing (h : Pos) (t : list Pos) (d : Pos) (gr : bool)
      (a : Apple) (sc : Z) (rng : Rng) :
  let nh := step_from h d in
  let r := if gr then h :: t else removelast (h :: t) in
  let hit := off_boardb nh || mem nh r in
  Game.update (mkGame (mkSnake (h :: t) d gr) a sc false, rng) =
  if pos_eqb nh (position a) then
    match Apple.spawn_loop (nh :: r) rng with
    | Done (_, (a', rng')) =>
        Done (tt, (mkGame (mkSnake (nh :: r) d true) a' (sc + 1) hit, rng'))
    | IndexError => IndexError
    | NoDraw => NoDraw
    end
  else Done (tt, (mkGame (mkSnake (nh :: r) d false) a sc hit, rng)).
Proof.
  intros nh r hit.
  unfold Game.update, bind, self_, on_snake, on_self, on_apple, zoom.
  cbn [fst snd snake game_over].
  rewrite move_cons. fold nh. fold r.
  cbv [fst snd set_snake snake body index0 ret apple].
  destruct (pos_eqb nh (position a)).
  - cbv [modify fst snd set_snake set_score set_grow set_apple snake body
         direction grow apple score game_over Apple.spawn].
    destruct (Apple.spawn_loop (nh :: r) rng) as [[[] [a' rng']]| |];
      try reflexivity.
    rewrite check_collision_cons. fold hit.
    destruct hit; reflexivity.
  - rewrite check_collision_cons. fold hit.
    destruct hit; reflexivity.
Qed.

Lemma reset_post (g : Game) (rng : Rng) (g' : Game) (rng' : Rng) :
  Game.reset (g, rng) = Done (tt, (g', rng')) ->
  snake g' = Snake.new /\ score g' = 0 /\ game_over g' = false /\
  on_grid (position (apple g')) /\
  ~ In (position (apple g')) (body (snake g')).
Proof.
  intros Hreset. rewrite reset_run in Hreset.
  destruct rng as [|r0 [|r1 rng1]]; try discriminate.
  destruct (Apple.spawn_loop (body Snake.new) rng1) as [[[] [a rng2]]| |] eqn:E;
    try discriminate.
  inversion Hreset; subst; clear Hreset. cbn [snake apple score game_over].
  destruct (spawn_loop_sound _ _ _ _ E) as [Hgrid Hfree]. auto.
Qed.

Lemma spawn_loop_no_IndexError (snake_body : list Pos) (rng : Rng) :
  Apple.spawn_loop snake_body rng <> IndexError.
Proof.
  induction rng as [|r|rx ry rest IH] using tape_pair_ind; try discriminate.
  rewrite spawn_loop_cons. destruct (mem _ snake_body); [exact IH | discriminate].
Qed.

Lemma reset_no_IndexError (g : Game) (rng : Rng) :
  Game.reset (g, rng) <> IndexError.
Proof.
  rewrite reset_run. destruct rng as [|r0 [|r1 rng1]]; try discriminate.
  pose proof (spawn_loop_no_IndexError (body Snake.new) rng1) as N.
  destruct (Apple.spawn_loop _ rng1) as [[[] [a rng2]]| |];
    [discriminate | contradiction | discriminate].
Qed.

Lemma update_empty (d : Pos) (gr : bool) (a : Apple) (sc : Z) (rng : Rng) :
  Game.update (mkGame (mkSnake [] d gr) a sc false, rng) = IndexError.
Proof. reflexivity. Qed.

Lemma on_snake_change_direction (d : Pos) (g : Game) (rng : Rng) :
  on_snake (Snake.change_direction d) (g, rng) =
  Done (tt, (set_snake (if pos_eqb d (- fst (direction (snake g)),
                                      - snd (direction (snake g)))
                        then snake g else set_direction d (snake g)) g, rng)).
Proof.
  unfold on_snake, zoom. cbn [fst snd]. rewrite change_direction_run. reflexivity.
Qed.

(** What every run of [handle_events] keeps: a property of the game that
    [reset] establishes and that does not depend on the heading. *)
Lemma handle_events_preserves (P : Game -> Prop) :
  (forall g rng g' rng', Game.reset (g, rng) = Done (tt, (g', rng')) -> P g') ->
  (forall g s, P g -> body s = body (snake g) -> grow s = grow (snake g) ->
               P (set_snake s g)) ->
  forall events g rng running g' rng',
    P g ->
    Game.handle_events events (g, rng) = Done (running, (g', rng')) ->
    P g'.
Proof.
  intros Hreset Hturn.
  assert (Hdir : forall d g rng1 (k : M World bool) (r : bool * World),
    P g ->
    (forall g1, P g1 -> k (g1, rng1) = Done r -> P (fst (snd r))) ->
    bind (on_snake (Snake.change_direction d)) (fun _ => k) (g, rng1) = Done r ->
    P (fst (snd r))).
  { intros d g rng1 k r Pg Hk H. unfold bind in H.
    rewrite on_snake_change_direction in H. eapply Hk; [|exact H].
    apply Hturn; [exact Pg | |]; destruct (pos_eqb d _); reflexivity. }
  induction events as [|event events IH]; intros g rng running g' rng' Pg H.
  - inversion H; subst; exact Pg.
  - assert (Hrest : forall g1 rng1, P g1 ->
      Game.handle_events events (g1, rng1) = Done (running, (g', rng')) -> P g')
      by (intros g1 rng1; apply IH).
    destruct event as [|key|]; cbn [Game.handle_events] in H.
    + inversion H; subst; exact Pg.
    + unfold bind at 1, self_ at 1 in H. cbn [fst] in H.
      destruct (game_over g), key;
        try (eapply Hrest; [exact Pg | exact H]);
        try (inversion H; subst; exact Pg);
        try (apply (Hdir _ _ _ _ _ Pg) in H; [exact H|];
             intros g1 Pg1 H1; eapply Hrest; [exact Pg1 | exact H1]).
      unfold bind in H.
      destruct (Game.reset (g, rng)) as [[[] [g1 rng1]]| |] eqn:E; try discriminate.
      eapply Hrest; [eapply Hreset, E | exact H].
    + eapply Hrest; [exact Pg | exact H].
Qed.

Lemma handle_events_no_IndexError (events : list Event) (g : Game) (rng : Rng) :
  Game.handle_events events (g, rng) <> IndexError.
Proof.
  revert g rng. induction events as [|event events IH]; intros g rng.
  - discriminate.
  - destruct event as [|key|]; cbn [Game.handle_events].
    + discriminate.
    + unfold bind at 1, self_ at 1. cbn [fst].
      destruct (game_over g), key; try apply IH; try discriminate;
        try (unfold bind; rewrite on_snake_change_direction; apply IH).
      unfold bind. pose proof (reset_no_IndexError g rng) as N.
      destruct (Game.reset (g, rng)) as [[[] [g1 rng1]]| |];
        [apply IH | contradiction | discriminate].
    + apply IH.
Qed.

Lemma update_over (g : Game) (rng : Rng) :
  game_over g = true -> Game.update (g, rng) = Done (tt, (g, rng)).
Proof.
  intros H. unfold Game.update, bind, self_. cbn [fst]. rewrite H. reflexivity.
Qed.

(** C1. One [update] in the Playing state: the snake moves first; the
    head after the move is compared with the apple, and on a match the
    growth flag is set, the score grows by exactly 1 and the apple is
    respawned off the body as it is after the move; the collision check,
    on the same moved snake, then decides the game-over flag.  Nothing
    else changes. *)
Theorem update_tick_sequence (g : Game) (rng : Rng) (moved : Snake)
        (head : Pos) (collided : bool) :
  game_over g = false ->
  Snake.move (snake g) = Done (tt, moved) ->
  hd_error (body moved) = Some head ->
  Snake.check_collision moved = Done (collided, moved) ->
  (head <> position (apple g) ->
     Game.update (g, rng)
     = Done (tt, (mkGame moved (apple g) (score g) collided, rng))) /\
  (head = position (apple g) ->
     (forall a' rng',
        Apple.spawn (Some (body moved)) (apple g, rng) = Done (tt, (a', rng')) ->
        Game.update (g, rng)
        = Done (tt, (mkGame (set_grow true moved) a' (score g + 1) collided, rng'))
        /\ ~ In (position a') (body moved)) /\
     (Apple.spawn (Some (body moved)) (apple g, rng) = NoDraw ->
        Game.update (g, rng) = NoDraw)).
Proof.
  destruct g as [[b d gr] a sc go]; cbn [game_over snake apple score].
  intros -> Hmove Hhd Hcol.
  destruct b as [|h t]; [rewrite move_empty in Hmove; discriminate|].
  rewrite move_cons in Hmove.
  set (r := if gr then h :: t else removelast (h :: t)) in *.
  assert (Hm : moved = mkSnake (step_from h d :: r) d false) by congruence.
  subst moved. clear Hmove. cbn [body hd_error] in Hhd.
  assert (Hh : head = step_from h d) by congruence.
  subst head. clear Hhd. rewrite check_collision_cons in Hcol.
  assert (Hhit : collided = off_boardb (step_from h d) || mem (step_from h d) r)
    by congruence.
  subst collided. clear Hcol.
  rewrite update_playing. cbv zeta. fold r. cbn [Apple.spawn body position].
  split; [|split].
  - intros Hne. apply pos_eqb_neq in Hne. rewrite Hne. reflexivity.
  - intros a' rng' Hspawn. apply pos_eqb_eq in H. rewrite H, Hspawn.
    split; [reflexivity|]. exact (proj2 (spawn_loop_sound _ _ _ _ Hspawn)).
  - intros Hspawn. apply pos_eqb_eq in H. rewrite H, Hspawn. reflexivity.
Qed.

Lemma update_tick_sequence_witness :
  Game.update (mkGame (mkSnake [(80, 100); (60, 100)] RIGHT false)
                      (mkApple (100, 100)) 3 false, [16; 12; 4; 5; 77])
  = Done (tt, (mkGame (mkSnake [(100, 100); (80, 100)] RIGHT true)
                      (mkApple (320, 240)) 4 false, [4; 5; 77])).
Proof.
  refine (proj1 (proj1 (proj2
    (update_tick_sequence
       (mkGame (mkSnake [(80, 100); (60, 100)] RIGHT false) (mkApple (100, 100)) 3 false)
       [16; 12; 4; 5; 77]
       (mkSnake [(100, 100); (80, 100)] RIGHT false) (100, 100) false
       eq_refl eq_refl eq_refl eq_refl) eq_refl)
    (mkApple (320, 240)) [4; 5; 77] eq_refl)).
Defined.

(** C7. With the game-over flag set, [update] returns at once: snake
    (body, heading, growth flag), apple, score, flag and random tape are
    all as before. *)
Theorem update_noop_when_game_over (g : Game) (rng : Rng) :
  game_over g = true ->
  Game.update (g, rng) = Done (tt, (g, rng)).
Proof.
  apply update_over.
Qed.

Lemma update_noop_when_game_over_witness :
  Game.update (mkGame (mkSnake [(640, 240)] RIGHT false) (mkApple (100, 100)) 0 true,
               [1; 2; 3])
  = Done (tt, (mkGame (mkSnake [(640, 240)] RIGHT false) (mkApple (100, 100)) 0 true,
               [1; 2; 3])).
Proof.
  exact (update_noop_when_game_over
           (mkGame (mkSnake [(640, 240)] RIGHT false) (mkApple (100, 100)) 0 true)
           [1; 2; 3] eq_refl).
Defined.

(** C9. After [Game.reset], run by [Game()] at program start or by the
    restart key in the game-over state, the snake's body is the single
    cell at the centre of the board rounded down to a cell boundary, its
    heading is RIGHT, its growth flag is clear, the score is 0, the
    game-over flag is clear, and the apple is on a cell of the board that
    is not in the snake's body. *)
Theorem reset_reinitializes (g : Game) (rng : Rng) (g' : Game) (rng' : Rng) :
  Game.reset (g, rng) = Done (tt, (g', rng')) \/
  Game.new rng = Done (g', rng') \/
  (game_over g = true /\
   Game.handle_events [KEYDOWN K_SPACE] (g, rng) = Done (true, (g', rng'))) ->
  body (snake g') = [(Snake.start_x, Snake.start_y)] /\
  Snake.start_x mod CELL_SIZE = 0 /\
  Snake.start_x <= WINDOW_WIDTH / 2 < Snake.start_x + CELL_SIZE /\
  Snake.start_y mod CELL_SIZE = 0 /\
  Snake.start_y <= WINDOW_HEIGHT / 2 < Snake.start_y + CELL_SIZE /\
  direction (snake g') = RIGHT /\
  grow (snake g') = false /\
  score g' = 0 /\
  game_over g' = false /\
  on_grid (position (apple g')) /\
  ~ In (position (apple g')) (body (snake g')).
Proof.
  intros H.
  assert (Hreset : Game.reset (g, rng) = Done (tt, (g', rng'))).
  { destruct H as [H | [H | [Hover H]]]; [exact H | |].
    - rewrite (new_is_reset g) in H.
      destruct (Game.reset (g, rng)) as [[[] [g1 rng1]]| |];
        cbv iota beta in H; [|discriminate..].
      inversion H; reflexivity.
    - rewrite (restart_is_reset g rng Hover) in H.
      destruct (Game.reset (g, rng)) as [[[] [g1 rng1]]| |];
        cbv iota beta in H; [|discriminate..].
      inversion H; reflexivity. }
  clear H. destruct (reset_post _ _ _ _ Hreset) as (Hs & Hsc & Hgo & Hgrid & Hfree).
  rewrite Hs in *. cbn [body direction grow Snake.new].
  repeat match goal with |- _ /\ _ => split end;
    try reflexivity; try assumption; vm_compute; discriminate.
Qed.

Lemma reset_reinitializes_witness :
  Game.reset (Game.blank, [3; 4; 16; 12; 5; 5; 8])
  = Done (tt, (mkGame (mkSnake [(320, 240)] RIGHT false) (mkApple (100, 100)) 0 false, [8]))
  /\ ~ In (100, 100) [(320, 240)].
Proof.
  split; [reflexivity|].
  exact (proj2 (proj2 (proj2 (proj2 (proj2 (proj2 (proj2 (proj2 (proj2 (proj2
    (reset_reinitializes Game.blank [3; 4; 16; 12; 5; 5; 8]
       (mkGame (mkSnake [(320, 240)] RIGHT false) (mkApple (100, 100)) 0 false) [8]
       (or_introl eq_refl)))))))))))).
Defined.

Lemma new_post (rng : Rng) (g : Game) (rng' : Rng) :
  Game.new rng = Done (g, rng') ->
  Game.reset (Game.blank, rng) = Done (tt, (g, rng')).
Proof.
  unfold Game.new. intros H.
  destruct (Game.reset (Game.blank, rng)) as [[[] [g1 rng1]]| |];
    [|discriminate..].
  inversion H; reflexivity.
Qed.

Lemma update_keeps_apple_off_snake (g : Game) (rng : Rng) (g' : Game) (rng' : Rng) :
  apple_off_snake g ->
  Game.update (g, rng) = Done (tt, (g', rng')) ->
  apple_off_snake g'.
Proof.
  destruct g as [[b d gr] a sc go]. unfold apple_off_snake.
  cbn [apple snake body]. intros Hoff H. destruct go.
  - rewrite update_over in H by reflexivity. inversion H; subst. exact Hoff.
  - destruct b as [|h t]; [rewrite update_empty in H; discriminate|].
    rewrite update_playing in H. cbv zeta in H.
    set (r := if gr then h :: t else removelast (h :: t)) in *.
    destruct (pos_eqb (step_from h d) (position a)) eqn:E.
    + destruct (Apple.spawn_loop (step_from h d :: r) rng)
        as [[[] [a' rng1]]| |] eqn:Hspawn; try discriminate.
      inversion H; subst. cbn [apple snake body position].
      exact (proj2 (spawn_loop_sound _ _ _ _ Hspawn)).
    + inversion H; subst. cbn [apple snake body]. intros [Hhead | Hrest].
      * apply pos_eqb_neq in E. exact (E Hhead).
      * apply Hoff. subst r. destruct gr; [exact Hrest|].
        apply In_removelast, Hrest.
Qed.

Lemma update_keeps_body (g : Game) (rng : Rng) (g' : Game) (rng' : Rng) :
  Game.update (g, rng) = Done (tt, (g', rng')) ->
  body (snake g) <> [] -> body (snake g') <> [].
Proof.
  destruct g as [[b d gr] a sc go]. cbn [snake body]. intros H Hb. destruct go.
  - rewrite update_over in H by reflexivity. inversion H; subst. exact Hb.
  - destruct b as [|h t]; [contradiction|].
    rewrite update_playing in H. cbv zeta in H.
    destruct (pos_eqb (step_from h d) (position a)).
    + destruct (Apple.spawn_loop _ rng) as [[[] [a' rng1]]| |]; try discriminate.
      inversion H; subst. discriminate.
    + inversion H; subst. discriminate.
Qed.

Lemma update_no_IndexError (g : Game) (rng : Rng) :
  body (snake g) <> [] -> Game.update (g, rng) <> IndexError.
Proof.
  destruct g as [[b d gr] a sc go]. cbn [snake body]. intros Hb. destruct go.
  - rewrite update_over by reflexivity. discriminate.
  - destruct b as [|h t]; [contradiction|].
    rewrite update_playing. cbv zeta.
    destruct (pos_eqb (step_from h d) (position a)); [|discriminate].
    pose proof (spawn_loop_no_IndexError
                  (step_from h d :: if gr then h :: t else removelast (h :: t)) rng) as N.
    destruct (Apple.spawn_loop _ rng) as [[[] [a' rng1]]| |];
      [discriminate | contradiction | discriminate].
Qed.

Lemma reachable_body (g : Game) : reachable g -> body (snake g) <> [].
Proof.
  induction 1 as [rng g rng' Hnew | g rng events running g' rng' _ IH Hev
                 | g rng g' rng' _ IH Hup].
  - apply new_post, reset_post in Hnew. destruct Hnew as [-> _]. discriminate.
  - revert IH Hev. apply (handle_events_preserves (fun g => body (snake g) <> [])).
    + intros g0 rng0 g1 rng1 Hr. apply reset_post in Hr.
      destruct Hr as [-> _]. discriminate.
    + intros g0 s Hg0 Hs _. cbn [set_snake snake]. rewrite Hs. exact Hg0.
  - exact (update_keeps_body _ _ _ _ Hup IH).
Qed.

(** C6. In every reachable game, so after [Game.reset] and after each
    [Game.update] has completed, the apple's position is not a position
    of the snake's body. *)
Theorem apple_never_on_snake (g : Game) :
  reachable g -> ~ In (position (apple g)) (body (snake g)).
Proof.
  induction 1 as [rng g rng' Hnew | g rng events running g' rng' _ IH Hev
                 | g rng g' rng' _ IH Hup].
  - apply new_post, reset_post in Hnew. tauto.
  - revert IH Hev. apply (handle_events_preserves apple_off_snake).
    + intros g0 rng0 g1 rng1 Hr. apply reset_post in Hr.
      unfold apple_off_snake. tauto.
    + intros g0 s Hg0 Hs _. unfold apple_off_snake in *.
      cbn [set_snake snake apple]. rewrite Hs. exact Hg0.
  - exact (update_keeps_apple_off_snake _ _ _ _ IH Hup).
Qed.

Lemma apple_never_on_snake_witness :
  reachable (mkGame (mkSnake [(340, 240)] RIGHT true) (mkApple (40, 40)) 1 false) /\
  ~ In (40, 40) [(340, 240)].
Proof.
  assert (Hreach : reachable
            (mkGame (mkSnake [(340, 240)] RIGHT true) (mkApple (40, 40)) 1 false)).
  { apply (reach_update
             (mkGame (mkSnake [(320, 240)] RIGHT false) (mkApple (340, 240)) 0 false)
             [17; 12; 2; 2] _ []); [|reflexivity].
    apply (reach_new [3; 4; 17; 12; 17; 12; 2; 2] _ [17; 12; 2; 2]). reflexivity. }
  split; [exact Hreach | exact (apple_never_on_snake _ Hreach)].
Defined.

Lemma returns_Done {A} (a : A) : returns (Done a).
Proof. exists a. reflexivity. Qed.

Lemma not_returns_NoDraw {A} : ~ returns (@NoDraw A).
Proof. intros [a H]. discriminate. Qed.

Lemma not_returns_IndexError {A} : ~ returns (@IndexError A).
Proof. intros [a H]. discriminate. Qed.

(** In the Playing state [update] returns unless the apple is eaten and
    its respawn does not return. *)
Lemma update_playing_returns (h : Pos) (t : list Pos) (d : Pos) (gr : bool)
      (a : Apple) (sc : Z) (rng : Rng) :
  let nh := step_from h d in
  let r := if gr then h :: t else removelast (h :: t) in
  returns (Game.update (mkGame (mkSnake (h :: t) d gr) a sc false, rng)) <->
  nh <> position a \/ returns (Apple.spawn_loop (nh :: r) rng).
Proof.
  intros nh r. rewrite update_playing. fold nh. fold r.
  destruct (pos_eqb nh (position a)) eqn:E.
  - apply pos_eqb_eq in E.
    destruct (Apple.spawn_loop (nh :: r) rng) as [[[] [a' rng']]| |].
    + split; intros _; [right|]; apply returns_Done.
    + split; [intros H; destruct (not_returns_IndexError H)|].
      intros [N | H]; [contradiction | destruct (not_returns_IndexError H)].
    + split; [intros H; destruct (not_returns_NoDraw H)|].
      intros [N | H]; [contradiction | destruct (not_returns_NoDraw H)].
  - apply pos_eqb_neq in E. split; intros _; [left; exact E | apply returns_Done].
Qed.

(** The respawn returns on some tape exactly when a cell of the board is
    free. *)
Lemma spawn_loop_some_tape (occupied : list Pos) :
  (exists tape, returns (Apple.spawn_loop occupied tape)) <->
  exists c, on_grid c /\ ~ In c occupied.
Proof.
  split.
  - intros (tape & [[] [a rng']] & H). exists (position a).
    exact (spawn_loop_sound _ _ _ _ H).
  - intros (c & Hc & Hfree).
    exists [fst c / CELL_SIZE; snd c / CELL_SIZE].
    assert (Hmem : mem (sample (fst c / CELL_SIZE) (snd c / CELL_SIZE)) occupied = false)
      by (rewrite sample_onto by exact Hc; apply mem_not_In, Hfree).
    pose proof (spawn_loop_accepts occupied [] _ _ [] eq_refl Hmem) as Hrun.
    cbn [flatten app] in Hrun. rewrite Hrun. apply returns_Done.
Qed.

(** C10 (as amended). The body of a fresh snake is non-empty; [move],
    [change_direction] and [check_collision] return on every snake with a
    non-empty body and leave the body non-empty; hence in every reachable
    game the body is non-empty, and neither [update] nor [handle_events]
    raises IndexError there.  [update] returns whenever the respawn of the
    apple inside it does: always when the game is over or the moved head
    is not on the apple, and otherwise on exactly the tapes on which
    [Apple.spawn] returns for the moved body; such a tape exists exactly
    when the moved body leaves a cell of the board free. *)
Theorem body_never_empty :
  body Snake.new <> [] /\
  (forall s, body s <> [] ->
     (exists s', Snake.move s = Done (tt, s') /\ body s' <> []) /\
     (forall d, exists s',
        Snake.change_direction d s = Done (tt, s') /\ body s' <> []) /\
     (exists b, Snake.check_collision s = Done (b, s))) /\
  (forall g, reachable g ->
     body (snake g) <> [] /\
     forall rng,
       Game.update (g, rng) <> IndexError /\
       (forall g' rng', Game.update (g, rng) = Done (tt, (g', rng')) ->
                        body (snake g') <> []) /\
       (forall events, Game.handle_events events (g, rng) <> IndexError) /\
       (game_over g = true -> Game.update (g, rng) = Done (tt, (g, rng))) /\
       (game_over g = false ->
          exists moved head,
            Snake.move (snake g) = Done (tt, moved) /\
            hd_error (body moved) = Some head /\
            (returns (Game.update (g, rng)) <->
               head <> position (apple g) \/
               returns (Apple.spawn (Some (body moved)) (apple g, rng))) /\
            ((exists tape, returns (Game.update (g, tape))) <->
               head <> position (apple g) \/
               exists c, on_grid c /\ ~ In c (body moved)))).
Proof.
  split; [discriminate|]. split.
  - intros [b d gr]; cbn [body]. intros Hb.
    destruct b as [|h t]; [contradiction|]. split; [|split].
    + rewrite move_cons. eexists; split; [reflexivity | discriminate].
    + intros nd. rewrite change_direction_run. eexists; split; [reflexivity|].
      destruct (pos_eqb nd _); discriminate.
    + rewrite check_collision_cons. eexists; reflexivity.
  - intros g Hreach. pose proof (reachable_body g Hreach) as Hb.
    split; [exact Hb|]. intros rng. split; [|split; [|split; [|split]]].
    + apply update_no_IndexError, Hb.
    + intros g' rng' Hup. exact (update_keeps_body _ _ _ _ Hup Hb).
    + intros events. apply handle_events_no_IndexError.
    + apply update_over.
    + destruct g as [[b d gr] a sc go].
      cbn [snake apple game_over body] in *. intros ->.
      destruct b as [|h t]; [contradiction|].
      set (r := if gr then h :: t else removelast (h :: t)).
      exists (mkSnake (step_from h d :: r) d false), (step_from h d).
      split; [apply move_cons|]. split; [reflexivity|].
      cbn [body Apple.spawn]. split.
      * apply update_playing_returns.
      * rewrite <- spawn_loop_some_tape. split.
        -- intros [tape H]. apply update_playing_returns in H.
           destruct H as [H | H]; [left; exact H | right; exists tape; exact H].
        -- intros [H | [tape H]].
           ++ exists []. apply update_playing_returns. left; exact H.
           ++ exists tape. apply update_playing_returns. right; exact H.
Qed.

Lemma body_never_empty_witness :
  reachable (mkGame (mkSnake [(320, 240)] RIGHT false) (mkApple (340, 240)) 0 false) /\
  Game.update (mkGame (mkSnake [(320, 240)] RIGHT false) (mkApple (340, 240)) 0 false,
               [17; 12; 2; 2])
  = Done (tt, (mkGame (mkSnake [(340, 240)] RIGHT true) (mkApple (40, 40)) 1 false, [])) /\
  returns (Game.update
             (mkGame (mkSnake [(320, 240)] RIGHT false) (mkApple (340, 240)) 0 false,
              [17; 12; 2; 2])).
Proof.
  assert (Hreach : reachable
            (mkGame (mkSnake [(320, 240)] RIGHT false) (mkApple (340, 240)) 0 false)).
  { apply (reach_new [3; 4; 17; 12] _ []). reflexivity. }
  split; [exact Hreach|]. split; [reflexivity|].
  destruct (proj2 (proj2 (proj2 (proj2
              (proj2 (proj2 (proj2 body_never_empty) _ Hreach) [17; 12; 2; 2]))))
              eq_refl)
    as (moved & head & Hmove & Hhead & Hiff & _).
  apply Hiff. right.
  assert (Hm : moved = mkSnake [(340, 240)] RIGHT false)
    by (cbn in Hmove; injection Hmove as <-; reflexivity).
  subst moved. apply returns_Done.
Defined.

(** C5 (fails on the code). [change_direction] compares the requested
    heading with the heading of the moment, not with the heading of the
    last move.  From a new game one frame without events moves the snake
    RIGHT; the next frame delivers the key-down events UP and LEFT
    together: UP is accepted over RIGHT, LEFT is accepted over UP, and the
    move of that frame is made with LEFT, the exact opposite of the
    heading of the move before. *)
Theorem two_turns_in_one_frame_reverse :
  Game.new [0; 0; 5; 5]
  = Done (mkGame (mkSnake [(320, 240)] RIGHT false) (mkApple (100, 100)) 0 false, []) /\
  Game.run [[]; [KEYDOWN K_UP; KEYDOWN K_LEFT]]
    (mkGame (mkSnake [(320, 240)] RIGHT false) (mkApple (100, 100)) 0 false, [])
  = Done ([RIGHT; LEFT],
          (mkGame (mkSnake [(320, 240)] LEFT false) (mkApple (100, 100)) 0 false, [])) /\
  LEFT = opposite RIGHT /\
  reverses [RIGHT; LEFT] = true.
Proof.
  repeat split.
Qed.

(** * Further properties of the code *)

(** ** Event handling *)

Lemma set_snake_same (g : Game) : set_snake (snake g) g = g.
Proof. destruct g; reflexivity. Qed.

Lemma set_direction_same (s : Snake) : set_direction (direction s) s = s.
Proof. destruct s; reflexivity. Qed.

Lemma handle_events_keydown (key : Key) (evs : list Event) (g : Game) (rng : Rng) :
  Game.handle_events (KEYDOWN key :: evs) (g, rng) =
  (if game_over g then
     match key with
     | K_SPACE => Game.reset ;; Game.handle_events evs
     | K_ESCAPE => ret false
     | _ => Game.handle_events evs
     end
   else
     match key with
     | K_UP | K_w => on_snake (Snake.change_direction UP) ;; Game.handle_events evs
     | K_DOWN | K_s => on_snake (Snake.change_direction DOWN) ;; Game.handle_events evs
     | K_LEFT | K_a => on_snake (Snake.change_direction LEFT) ;; Game.handle_events evs
     | K_RIGHT | K_d => on_snake (Snake.change_direction RIGHT) ;; Game.handle_events evs
     | K_ESCAPE => ret false
     | _ => Game.handle_events evs
     end) (g, rng).
Proof. reflexivity. Qed.

(** X1. Handling the events [evs1 ++ evs2] in one call is handling [evs1]
    and then, from the state reached, [evs2]; unless [evs1] already made
    [handle_events] return [False], in which case [evs2] is not looked at. *)
Theorem handle_events_app (evs1 evs2 : list Event) (w : World) :
  Game.handle_events (evs1 ++ evs2) w =
  match Game.handle_events evs1 w with
  | Done (true, w1) => Game.handle_events evs2 w1
  | Done (false, w1) => Done (false, w1)
  | IndexError => IndexError
  | NoDraw => NoDraw
  end.
Proof.
  revert w. induction evs1 as [|e evs1 IH]; intros [g rng]; [reflexivity|].
  destruct e as [|key|]; cbn [app].
  - reflexivity.
  - rewrite !handle_events_keydown.
    destruct (game_over g), key; try apply IH; try reflexivity;
      try (unfold bind; rewrite on_snake_change_direction; apply IH).
    unfold bind.
    destruct (Game.reset (g, rng)) as [[[] w1]| |]; [apply IH | reflexivity..].
  - cbn [Game.handle_events]. apply IH.
Qed.

Lemma handle_events_quits (e : Event) (evs : list Event) (w : World) :
  quits e = true -> Game.handle_events (e :: evs) w = Done (false, w).
Proof.
  destruct w as [g rng]. destruct e as [|key|]; try discriminate; [reflexivity|].
  destruct key; try discriminate. intros _. rewrite handle_events_keydown.
  destruct (game_over g); reflexivity.
Qed.

Lemma handle_events_turn (e : Event) (d : Pos) (evs : list Event)
      (g : Game) (rng : Rng) :
  turn_of e = Some d -> game_over g = false ->
  Game.handle_events (e :: evs) (g, rng) =
  Game.handle_events evs
    (set_snake (if pos_eqb d (opposite (direction (snake g)))
                then snake g else set_direction d (snake g)) g, rng).
Proof.
  intros Ht Hg. destruct e as [|key|]; try discriminate.
  rewrite handle_events_keydown, Hg.
  destruct key; try discriminate; inversion Ht; subst d;
    unfold bind; rewrite on_snake_change_direction; reflexivity.
Qed.

Lemma handle_events_restart (evs : list Event) (g : Game) (rng : Rng) :
  game_over g = true ->
  Game.handle_events (KEYDOWN K_SPACE :: evs) (g, rng) =
  match Game.reset (g, rng) with
  | Done (_, w) => Game.handle_events evs w
  | IndexError => IndexError
  | NoDraw => NoDraw
  end.
Proof.
  intros Hg. rewrite handle_events_keydown, Hg. unfold bind.
  destruct (Game.reset (g, rng)) as [[[] w]| |]; reflexivity.
Qed.

Lemma handle_events_skip (e : Event) (evs : list Event) (g : Game) (rng : Rng) :
  quits e = false ->
  (if game_over g then restarts e = false else turn_of e = None) ->
  Game.handle_events (e :: evs) (g, rng) = Game.handle_events evs (g, rng).
Proof.
  intros Hq Hs. destruct e as [|key|]; try discriminate; [|reflexivity].
  rewrite handle_events_keydown.
  destruct (game_over g), key; try discriminate; reflexivity.
Qed.

(** The ways in which one event is handled. *)
Lemma event_cases (e : Event) (g : Game) :
  quits e = true \/
  (game_over g = true /\ e = KEYDOWN K_SPACE) \/
  (game_over g = false /\ exists d, turn_of e = Some d /\ unit_heading d) \/
  (quits e = false /\
   if game_over g then restarts e = false else turn_of e = None).
Proof.
  unfold unit_heading.
  destruct e as [|key|]; [left; reflexivity | | right; right; right].
  - destruct (game_over g), key; cbn;
      try (left; reflexivity);
      try (right; left; split; reflexivity);
      try (right; right; right; split; reflexivity);
      right; right; left; (split; [reflexivity|]); eexists; split;
        try reflexivity; tauto.
  - split; [reflexivity|]. destruct (game_over g); reflexivity.
Qed.

Lemma turn_not_quit (e : Event) (d : Pos) : turn_of e = Some d -> quits e = false.
Proof. destruct e as [|key|]; try discriminate. destruct key; (discriminate || reflexivity). Qed.

Lemma turns_cons_turn (e : Event) (d : Pos) (evs : list Event) :
  turn_of e = Some d -> turns (e :: evs) = Datatypes.S (turns evs).
Proof. intros H. unfold turns. cbn [filter]. rewrite H. reflexivity. Qed.

Lemma turns_cons_other (e : Event) (evs : list Event) :
  turn_of e = None -> turns (e :: evs) = turns evs.
Proof. intros H. unfold turns. cbn [filter]. rewrite H. reflexivity. Qed.

Lemma unit_heading_not_opposite (d : Pos) : unit_heading d -> d <> opposite d.
Proof. intros [-> | [-> | [-> | ->]]]; discriminate. Qed.

(** What [handle_events] does to a game that is not over. *)
Lemma handle_events_playing (evs : list Event) (g : Game) (rng : Rng) :
  game_over g = false ->
  exists d,
    Game.handle_events evs (g, rng)
    = Done (negb (existsb quits evs), (set_snake (set_direction d (snake g)) g, rng)) /\
    (d = direction (snake g) \/ unit_heading d) /\
    ((turns evs <= 1)%nat ->
       d = direction (snake g) \/ d <> opposite (direction (snake g))) /\
    (turns evs = 0%nat -> d = direction (snake g)).
Proof.
  revert g. induction evs as [|e evs IH]; intros g Hg.
  - exists (direction (snake g)).
    rewrite set_direction_same, set_snake_same. auto.
  - destruct (event_cases e g)
      as [Hq | [[Hov _] | [[_ (d0 & Ht & Hu)] | [Hq Hs]]]].
    + exists (direction (snake g)).
      rewrite (handle_events_quits e evs _ Hq), set_direction_same, set_snake_same.
      cbn [existsb]. rewrite Hq. auto.
    + congruence.
    + rewrite (handle_events_turn e d0 evs g rng Ht Hg).
      set (s1 := if pos_eqb d0 (opposite (direction (snake g)))
                 then snake g else set_direction d0 (snake g)).
      destruct (IH (set_snake s1 g) Hg) as (d & Hrun & Hd & Hone & Hzero).
      exists d. cbn [existsb]. rewrite (turn_not_quit e d0 Ht), Hrun.
      rewrite (turns_cons_turn e d0 evs Ht).
      cbn [set_snake snake apple score game_over] in *.
      assert (Hs1 : set_direction d s1 = set_direction d (snake g))
        by (subst s1; destruct (pos_eqb d0 _); reflexivity).
      rewrite Hs1. split; [reflexivity|].
      assert (Hdir : direction s1 = direction (snake g) \/
                     (direction s1 = d0 /\ d0 <> opposite (direction (snake g)))).
      { subst s1. destruct (pos_eqb d0 _) eqn:E; [left; reflexivity|].
        right. split; [reflexivity | apply pos_eqb_neq, E]. }
      split; [|split].
      * destruct Hd as [-> | Hd]; [|right; exact Hd].
        destruct Hdir as [-> | [-> _]]; [left; reflexivity | right; exact Hu].
      * intros Hle. rewrite (Hzero ltac:(lia)).
        destruct Hdir as [-> | [-> Hne]]; [left; reflexivity | right; exact Hne].
      * intros Hz. discriminate.
    + rewrite Hg in Hs. rewrite (handle_events_skip e evs g rng Hq);
        [|rewrite Hg; exact Hs].
      destruct (IH g Hg) as (d & Hrun & Hd & Hone & Hzero).
      exists d. cbn [existsb]. rewrite Hq, Hrun, (turns_cons_other e evs Hs). auto.
Qed.

(** What [handle_events] does to a game that is over, when no event is the
    restart key. *)
Lemma handle_events_over (evs : list Event) (g : Game) (rng : Rng) :
  game_over g = true -> existsb restarts evs = false ->
  Game.handle_events evs (g, rng) = Done (negb (existsb quits evs), (g, rng)).
Proof.
  intros Hg. induction evs as [|e evs IH]; intros Hr; [reflexivity|].
  cbn [existsb] in *. apply orb_false_iff in Hr as [Hre Hr].
  destruct (quits e) eqn:Hq.
  - apply handle_events_quits, Hq.
  - rewrite (handle_events_skip e evs g rng Hq); [|rewrite Hg; exact Hre].
    apply IH, Hr.
Qed.

(** X2. While the game is not over, [handle_events] returns on every list
    of events without reading the random tape, and changes at most the
    snake's heading: body, growth flag, apple, score and game-over flag
    are as before, and the new heading is the old one or one of UP, DOWN,
    LEFT and RIGHT. *)
Theorem handle_events_playing_only_turns (evs : list Event) (g : Game) (rng : Rng) :
  game_over g = false ->
  exists running d,
    Game.handle_events evs (g, rng)
    = Done (running, (mkGame (mkSnake (body (snake g)) d (grow (snake g)))
                             (apple g) (score g) false, rng)) /\
    (d = direction (snake g) \/ unit_heading d).
Proof.
  intros Hg. destruct (handle_events_playing evs g rng Hg) as (d & Hrun & Hd & _).
  exists (negb (existsb quits evs)), d. rewrite Hrun. split; [|exact Hd].
  unfold set_snake, set_direction. rewrite Hg. reflexivity.
Qed.

Lemma handle_events_playing_only_turns_witness :
  exists running d,
    Game.handle_events [KEYDOWN K_SPACE; KEYDOWN K_w; OTHER_EVENT; KEYDOWN K_ESCAPE;
                        KEYDOWN K_LEFT]
      (mkGame (mkSnake [(320, 240); (300, 240)] RIGHT true) (mkApple (100, 100)) 1 false,
       [7; 8])
    = Done (running,
            (mkGame (mkSnake [(320, 240); (300, 240)] d true) (mkApple (100, 100)) 1 false,
             [7; 8])).
Proof.
  destruct (handle_events_playing_only_turns
              [KEYDOWN K_SPACE; KEYDOWN K_w; OTHER_EVENT; KEYDOWN K_ESCAPE; KEYDOWN K_LEFT]
              (mkGame (mkSnake [(320, 240); (300, 240)] RIGHT true) (mkApple (100, 100)) 1 false)
              [7; 8] eq_refl) as (running & d & Hrun & _).
  exists running, d. exact Hrun.
Defined.

(** X3. While the game is over, events other than the restart key change
    nothing: [handle_events] returns the game and the random tape as they
    were. *)
Theorem handle_events_over_without_restart (evs : list Event) (g : Game) (rng : Rng) :
  game_over g = true ->
  existsb restarts evs = false ->
  exists running, Game.handle_events evs (g, rng) = Done (running, (g, rng)).
Proof.
  intros Hg Hr. eexists. apply handle_events_over; assumption.
Qed.

Lemma handle_events_over_without_restart_witness :
  exists running,
    Game.handle_events [KEYDOWN K_UP; KEYDOWN K_a; OTHER_EVENT; KEYDOWN (K_other 5)]
      (mkGame (mkSnake [(640, 240)] RIGHT false) (mkApple (100, 100)) 0 true, [1; 2])
    = Done (running,
            (mkGame (mkSnake [(640, 240)] RIGHT false) (mkApple (100, 100)) 0 true, [1; 2])).
Proof.
  exact (handle_events_over_without_restart
           [KEYDOWN K_UP; KEYDOWN K_a; OTHER_EVENT; KEYDOWN (K_other 5)]
           (mkGame (mkSnake [(640, 240)] RIGHT false) (mkApple (100, 100)) 0 true)
           [1; 2] eq_refl eq_refl).
Defined.

(** X4. When [handle_events] returns, it returns [False] exactly when the
    events hold a QUIT event or a key-down event of the Escape key,
    whether the game is over or not. *)
Theorem handle_events_false_iff_quit (evs : list Event) (w : World)
        (running : bool) (w' : World) :
  Game.handle_events evs w = Done (running, w') ->
  (running = false <->
   exists e, In e evs /\ (e = QUIT \/ e = KEYDOWN K_ESCAPE)).
Proof.
  intros H.
  assert (Hrun : running = negb (existsb quits evs)).
  { revert w H. induction evs as [|e evs IH]; intros [g rng] H.
    - inversion H; reflexivity.
    - cbn [existsb].
      destruct (event_cases e g)
        as [Hq | [[Hov ->] | [[Hpl (d0 & Ht & _)] | [Hq Hs]]]].
      + rewrite (handle_events_quits e evs _ Hq) in H. rewrite Hq.
        inversion H; reflexivity.
      + rewrite (handle_events_restart evs g rng Hov) in H.
        destruct (Game.reset (g, rng)) as [[[] w1]| |]; try discriminate.
        exact (IH _ H).
      + rewrite (handle_events_turn e d0 evs g rng Ht Hpl) in H.
        rewrite (turn_not_quit e d0 Ht). exact (IH _ H).
      + rewrite (handle_events_skip e evs g rng Hq Hs) in H.
        rewrite Hq. exact (IH _ H). }
  rewrite Hrun, negb_false_iff, existsb_exists. split.
  - intros (e & Hin & Hq). exists e. split; [exact Hin|].
    destruct e as [|key|]; try discriminate; [left; reflexivity|].
    destruct key; try discriminate. right; reflexivity.
  - intros (e & Hin & [-> | ->]); eexists; split; try exact Hin; reflexivity.
Qed.

Lemma handle_events_false_iff_quit_witness :
  Game.handle_events [KEYDOWN K_UP; KEYDOWN K_ESCAPE; KEYDOWN K_LEFT]
    (mkGame (mkSnake [(320, 240)] RIGHT false) (mkApple (100, 100)) 0 false, [])
  = Done (false, (mkGame (mkSnake [(320, 240)] UP false) (mkApple (100, 100)) 0 false, []))
  /\ exists e, In e [KEYDOWN K_UP; KEYDOWN K_ESCAPE; KEYDOWN K_LEFT] /\
               (e = QUIT \/ e = KEYDOWN K_ESCAPE).
Proof.
  split; [reflexivity|].
  exact (proj1 (handle_events_false_iff_quit
                  [KEYDOWN K_UP; KEYDOWN K_ESCAPE; KEYDOWN K_LEFT]
                  (mkGame (mkSnake [(320, 240)] RIGHT false) (mkApple (100, 100)) 0 false, [])
                  false _ eq_refl) eq_refl).
Defined.

(** ** What every reachable game keeps *)

Lemma handle_events_invariant (P : Game -> Prop) :
  (forall g rng g' rng', Game.reset (g, rng) = Done (tt, (g', rng')) -> P g') ->
  (forall g d, P g -> unit_heading d ->
               P (set_snake (set_direction d (snake g)) g)) ->
  forall evs g rng running g' rng',
    P g ->
    Game.handle_events evs (g, rng) = Done (running, (g', rng')) ->
    P g'.
Proof.
  intros Hreset Hturn. induction evs as [|e evs IH]; intros g rng running g' rng' Pg H.
  - inversion H; subst; exact Pg.
  - destruct (event_cases e g)
      as [Hq | [[Hov ->] | [[Hpl (d0 & Ht & Hu)] | [Hq Hs]]]].
    + rewrite (handle_events_quits e evs _ Hq) in H. inversion H; subst; exact Pg.
    + rewrite (handle_events_restart evs g rng Hov) in H.
      destruct (Game.reset (g, rng)) as [[[] [g1 rng1]]| |] eqn:E; try discriminate.
      exact (IH _ _ _ _ _ (Hreset _ _ _ _ E) H).
    + rewrite (handle_events_turn e d0 evs g rng Ht Hpl) in H.
      refine (IH _ _ _ _ _ _ H).
      destruct (pos_eqb d0 _); [rewrite set_snake_same; exact Pg|].
      apply Hturn; assumption.
    + rewrite (handle_events_skip e evs g rng Hq Hs) in H.
      exact (IH _ _ _ _ _ Pg H).
Qed.

Lemma reachable_invariant (P : Game -> Prop) :
  (forall g rng g' rng', Game.reset (g, rng) = Done (tt, (g', rng')) -> P g') ->
  (forall g d, P g -> unit_heading d ->
               P (set_snake (set_direction d (snake g)) g)) ->
  (forall g rng g' rng', P g -> Game.update (g, rng) = Done (tt, (g', rng')) -> P g') ->
  forall g, reachable g -> P g.
Proof.
  intros Hreset Hturn Hupdate.
  induction 1 as [rng g rng' Hnew | g rng events running g' rng' _ IH Hev
                 | g rng g' rng' _ IH Hup].
  - apply new_post in Hnew. exact (Hreset _ _ _ _ Hnew).
  - exact (handle_events_invariant P Hreset Hturn _ _ _ _ _ _ IH Hev).
  - exact (Hupdate _ _ _ _ IH Hup).
Qed.

(** One [update] that returns, by cases. *)
Lemma update_cases (g : Game) (rng : Rng) (g' : Game) (rng' : Rng) :
  Game.update (g, rng) = Done (tt, (g', rng')) ->
  (game_over g = true /\ g' = g /\ rng' = rng) \/
  (game_over g = false /\
   exists h t,
     body (snake g) = h :: t /\
     let nh := step_from h (direction (snake g)) in
     let r := if grow (snake g) then h :: t else removelast (h :: t) in
     body (snake g') = nh :: r /\
     direction (snake g') = direction (snake g) /\
     game_over g' = off_boardb nh || mem nh r /\
     ((nh = position (apple g) /\ grow (snake g') = true /\
       score g' = score g + 1 /\
       on_grid (position (apple g')) /\ ~ In (position (apple g')) (nh :: r)) \/
      (nh <> position (apple g) /\ grow (snake g') = false /\
       score g' = score g /\ apple g' = apple g /\ rng' = rng))).
Proof.
  destruct g as [[b d gr] a sc go]. cbn [snake apple score game_over body direction grow].
  intros H. destruct go.
  - left. rewrite update_over in H by reflexivity. inversion H; auto.
  - right. split; [reflexivity|].
    destruct b as [|h t]; [rewrite update_empty in H; discriminate|].
    exists h, t. split; [reflexivity|]. cbv zeta.
    rewrite update_playing in H. cbv zeta in H.
    destruct (pos_eqb (step_from h d) (position a)) eqn:E.
    + destruct (Apple.spawn_loop _ rng) as [[[] [a' rng1]]| |] eqn:Hspawn;
        try discriminate.
      inversion H; subst; clear H. cbn [snake apple score game_over body direction grow].
      destruct (spawn_loop_sound _ _ _ _ Hspawn) as [Hgrid Hfree].
      apply pos_eqb_eq in E. repeat split; auto 10.
    + inversion H; subst; clear H. cbn [snake apple score game_over body direction grow].
      apply pos_eqb_neq in E. repeat split; auto 10.
Qed.

Lemma chain_removelast (l : list Pos) : chain l -> chain (removelast l).
Proof.
  induction l as [|p l IH]; [auto|].
  destruct l as [|q l]; [auto|].
  change (removelast (p :: q :: l)) with (p :: removelast (q :: l)).
  intros [Hpq Hrest]. specialize (IH Hrest).
  destruct l as [|q' l]; [exact I|].
  change (removelast (q :: q' :: l)) with (q :: removelast (q' :: l)) in *.
  split; assumption.
Qed.

Lemma NoDup_removelast {A} (l : list A) : NoDup l -> NoDup (removelast l).
Proof.
  induction 1 as [|x l Hx Hl IH]; [constructor|].
  destruct l as [|y l]; [constructor|].
  change (removelast (x :: y :: l)) with (x :: removelast (y :: l)).
  constructor; [|exact IH]. intros Hin. apply Hx, In_removelast, Hin.
Qed.

Lemma Forall_removelast {A} (P : A -> Prop) (l : list A) :
  Forall P l -> Forall P (removelast l).
Proof.
  rewrite !Forall_forall. intros H x Hin. apply H, In_removelast, Hin.
Qed.

Lemma aligned_step (h d : Pos) : aligned h -> aligned (step_from h d).
Proof.
  unfold aligned, step_from; cbn [fst snd]. intros [Hx Hy].
  rewrite !Z_mod_plus_full. auto.
Qed.

Lemma on_grid_of_aligned (p : Pos) :
  aligned p -> off_boardb p = false -> on_grid p.
Proof.
  unfold aligned, on_grid. intros [Hx Hy] Hb.
  assert (Hoff : ~ off_board p)
    by (rewrite <- off_boardb_spec, Hb; discriminate).
  unfold off_board in Hoff. repeat split; try assumption; lia.
Qed.

Lemma well_formed_reset (g : Game) (rng : Rng) (g' : Game) (rng' : Rng) :
  Game.reset (g, rng) = Done (tt, (g', rng')) -> well_formed g'.
Proof.
  intros H. destruct (reset_post _ _ _ _ H) as (Hs & Hsc & Hgo & Hgrid & _).
  unfold well_formed. rewrite Hs, Hsc. cbn [Snake.new body direction grow length].
  assert (Hstart : on_grid (Snake.start_x, Snake.start_y))
    by (vm_compute; repeat split; discriminate).
  repeat match goal with |- _ /\ _ => split end.
  - right; right; right; reflexivity.
  - reflexivity.
  - exact Hgrid.
  - exact I.
  - constructor; [|constructor]. split; apply Hstart.
  - intros _. split; [constructor; [exact Hstart | constructor]|].
    constructor; [intros [] | constructor].
Qed.

Lemma well_formed_turn (g : Game) (d : Pos) :
  well_formed g -> unit_heading d ->
  well_formed (set_snake (set_direction d (snake g)) g).
Proof.
  destruct g as [[b d0 gr] a sc go]. unfold well_formed.
  cbn [set_snake set_direction snake apple score game_over body direction grow].
  tauto.
Qed.

Lemma well_formed_update (g : Game) (rng : Rng) (g' : Game) (rng' : Rng) :
  well_formed g -> Game.update (g, rng) = Done (tt, (g', rng')) -> well_formed g'.
Proof.
  intros Hwf H.
  destruct (update_cases _ _ _ _ H)
    as [(_ & -> & _) | (Hgo & h & t & Hb & Hb' & Hd' & Hgo' & Heat)];
    [exact Hwf|].
  cbv zeta in *.
  destruct Hwf as (Hunit & Hlen & Happle & Hchain & Halign & Hplay).
  destruct (Hplay Hgo) as [Hgrid Hnodup]. clear Hplay.
  rewrite Hb in *.
  set (d := direction (snake g)) in *.
  set (nh := step_from h d) in *.
  set (r := if grow (snake g) then h :: t else removelast (h :: t)) in *.
  assert (Hr_in : forall x, In x r -> In x (h :: t)).
  { intros x. subst r. destruct (grow (snake g)); [auto | apply In_removelast]. }
  assert (Hr_len : Z.of_nat (length r) + 1
                   = Z.of_nat (length (h :: t)) + if grow (snake g) then 1 else 0).
  { subst r. destruct (grow (snake g)); [lia|].
    rewrite removelast_length. cbn [length]. lia. }
  assert (Hnh : aligned nh).
  { apply aligned_step. inversion Halign; assumption. }
  unfold well_formed. rewrite Hb', Hd'.
  repeat match goal with |- _ /\ _ => split end.
  - exact Hunit.
  - cbn [length]. rewrite Nat2Z.inj_succ.
    destruct Heat as [(_ & -> & -> & _) | (_ & -> & -> & _)]; lia.
  - destruct Heat as [(_ & _ & _ & Hg & _) | (_ & _ & _ & -> & _)]; assumption.
  - assert (Hcr : chain r).
    { subst r. destruct (grow (snake g)); [exact Hchain|].
      apply chain_removelast, Hchain. }
    destruct r as [|q r'] eqn:Er; [exact I|].
    split; [|exact Hcr]. exists d. split; [exact Hunit|].
    assert (Hq : q = h).
    { subst r. destruct (grow (snake g)); [congruence|].
      destruct t as [|t1 t']; [discriminate|].
      change (removelast (h :: t1 :: t')) with (h :: removelast (t1 :: t')) in Er.
      congruence. }
    rewrite Hq. reflexivity.
  - constructor; [exact Hnh|].
    rewrite Forall_forall in *. intros x Hx. apply Halign, Hr_in, Hx.
  - rewrite Hgo'. intros Hhit. apply orb_false_iff in Hhit as [Hon Hmem].
    split.
    + constructor; [apply on_grid_of_aligned; assumption|].
      rewrite Forall_forall in *. intros x Hx. apply Hgrid, Hr_in, Hx.
    + constructor; [apply mem_not_In, Hmem|].
      subst r. destruct (grow (snake g)); [exact Hnodup|].
      apply NoDup_removelast, Hnodup.
Qed.

Lemma reachable_well_formed (g : Game) : reachable g -> well_formed g.
Proof.
  apply reachable_invariant.
  - exact well_formed_reset.
  - exact well_formed_turn.
  - exact well_formed_update.
Qed.

Lemma reachable_apple_off_snake (g : Game) : reachable g -> apple_off_snake g.
Proof.
  apply reachable_invariant.
  - intros g0 rng g1 rng1 H. apply reset_post in H. unfold apple_off_snake. tauto.
  - intros g0 d H _. exact H.
  - intros g0 rng g1 rng1 H Hup. exact (update_keeps_apple_off_snake _ _ _ _ H Hup).
Qed.

(** A game two steps into a run: built by [Game()], then one [update]
    that eats the apple. *)
Lemma reachable_after_first_apple :
  reachable (mkGame (mkSnake [(340, 240)] RIGHT true) (mkApple (40, 40)) 1 false).
Proof.
  apply (reach_update
           (mkGame (mkSnake [(320, 240)] RIGHT false) (mkApple (340, 240)) 0 false)
           [17; 12; 2; 2] _ []); [|reflexivity].
  apply (reach_new [3; 4; 17; 12; 17; 12; 2; 2] _ [17; 12; 2; 2]). reflexivity.
Qed.

(** One more [update]: the pending growth is applied. *)
Lemma reachable_two_cells :
  reachable (mkGame (mkSnake [(360, 240); (340, 240)] RIGHT false)
                    (mkApple (40, 40)) 1 false).
Proof.
  apply (reach_update _ [] _ [] reachable_after_first_apple). reflexivity.
Qed.

Lemma on_grid_in_all_cells (p : Pos) : on_grid p -> In p all_cells.
Proof.
  destruct p as [x y]. unfold on_grid, all_cells; cbn [fst snd].
  unfold CELL_SIZE, WINDOW_WIDTH, WINDOW_HEIGHT. intros (Hx & Hy & Bx & By).
  pose proof (Z.div_mod x 20 ltac:(lia)) as Dx.
  pose proof (Z.div_mod y 20 ltac:(lia)) as Dy.
  rewrite Hx in Dx. rewrite Hy in Dy.
  apply in_map_iff. exists (Z.to_nat (x / 20), Z.to_nat (y / 20)). cbn [fst snd].
  split.
  - rewrite !Z2Nat.id by lia. f_equal; lia.
  - apply in_prod; apply in_seq; lia.
Qed.

(** X5. In every reachable game the snake's heading is one of UP, DOWN,
    LEFT and RIGHT. *)
Theorem heading_is_unit (g : Game) :
  reachable g -> unit_heading (direction (snake g)).
Proof.
  intros H. apply (reachable_well_formed g H).
Qed.

Lemma heading_is_unit_witness : unit_heading RIGHT.
Proof.
  exact (heading_is_unit _ reachable_after_first_apple).
Defined.

(** X6. In every reachable game the number of body cells, plus one while
    growth is pending, is the score plus one; so the score is never
    negative and each apple eaten lengthens the snake by exactly one
    cell. *)
Theorem length_follows_score (g : Game) :
  reachable g ->
  Z.of_nat (length (body (snake g))) + (if grow (snake g) then 1 else 0)
  = score g + 1 /\
  0 <= score g.
Proof.
  intros H. pose proof (reachable_well_formed g H) as (_ & Hlen & _).
  pose proof (reachable_body g H) as Hb. split; [exact Hlen|].
  destruct (body (snake g)) as [|h t]; [contradiction|].
  cbn [length] in Hlen. destruct (grow (snake g)); lia.
Qed.

Lemma length_follows_score_witness :
  (Z.of_nat (length [(340, 240)]) + 1 = 1 + 1 /\ 0 <= 1) /\
  (Z.of_nat (length [(360, 240); (340, 240)]) + 0 = 1 + 1 /\ 0 <= 1).
Proof.
  split.
  - exact (length_follows_score _ reachable_after_first_apple).
  - exact (length_follows_score _ reachable_two_cells).
Defined.

(** X7. In every reachable game that is not over, every cell of the body
    is a cell of the board (grid-aligned, inside the window) and no cell
    occurs twice in the body. *)
Theorem playing_body_on_board (g : Game) :
  reachable g -> game_over g = false ->
  Forall on_grid (body (snake g)) /\ NoDup (body (snake g)).
Proof.
  intros H Hgo. apply (reachable_well_formed g H), Hgo.
Qed.

Lemma playing_body_on_board_witness :
  Forall on_grid [(360, 240); (340, 240)] /\ NoDup [(360, 240); (340, 240)].
Proof.
  exact (playing_body_on_board _ reachable_two_cells eq_refl).
Defined.

(** X8. In every reachable game that is not over the apple's cell is free,
    so the body holds at most 767 of the 768 cells of the board and the
    score is at most 767: the board is never full when [update] is
    entered. *)
Theorem playing_board_never_full (g : Game) :
  reachable g -> game_over g = false ->
  (length (body (snake g)) <= 767)%nat /\ score g <= 767.
Proof.
  intros H Hgo.
  pose proof (reachable_well_formed g H) as (_ & Hlen & Happle & _ & _ & Hplay).
  destruct (Hplay Hgo) as [Hgrid Hnodup].
  pose proof (reachable_apple_off_snake g H) as Hoff. unfold apple_off_snake in Hoff.
  assert (Hincl : incl (position (apple g) :: body (snake g)) all_cells).
  { intros p [<- | Hp]; apply on_grid_in_all_cells; [exact Happle|].
    rewrite Forall_forall in Hgrid. apply Hgrid, Hp. }
  assert (Hnd : NoDup (position (apple g) :: body (snake g)))
    by (constructor; assumption).
  pose proof (NoDup_incl_length Hnd Hincl) as Hle.
  change (length all_cells) with 768%nat in Hle. cbn [length] in Hle.
  split; [lia|]. destruct (grow (snake g)); lia.
Qed.

Lemma playing_board_never_full_witness :
  (length [(360, 240); (340, 240)] <= 767)%nat /\ 1 <= 767.
Proof.
  exact (playing_board_never_full _ reachable_two_cells eq_refl).
Defined.

(** X9. In every reachable game each cell of the body is exactly one step
    (one cell up, down, left or right) from the cell behind it. *)
Theorem body_is_a_chain (g : Game) :
  reachable g -> chain (body (snake g)).
Proof.
  intros H. apply (reachable_well_formed g H).
Qed.

Lemma body_is_a_chain_witness : chain [(360, 240); (340, 240)].
Proof.
  exact (body_is_a_chain _ reachable_two_cells).
Defined.

(** ** The loop *)

Lemma run_cons (evs : list Event) (frames : list (list Event)) (w : World) :
  Game.run (evs :: frames) w =
  match Game.handle_events evs w with
  | Done (running, w1) =>
      let used := if game_over (fst w1) then [] else [direction (snake (fst w1))] in
      match Game.update w1 with
      | Done (_, w2) =>
          if running then
            match Game.run frames w2 with
            | Done (later, w3) => Done (used ++ later, w3)
            | IndexError => IndexError
            | NoDraw => NoDraw
            end
          else Done (used, w2)
      | IndexError => IndexError
      | NoDraw => NoDraw
      end
  | IndexError => IndexError
  | NoDraw => NoDraw
  end.
Proof.
  cbn [Game.run]. unfold bind at 1.
  destruct (Game.handle_events evs w) as [[running w1]| |]; try reflexivity.
  unfold bind at 1, self_ at 1. unfold bind at 1.
  destruct (Game.update w1) as [[[] w2]| |]; try reflexivity.
  destruct running; [|reflexivity]. unfold bind, ret.
  destruct (Game.run frames w2) as [[later w3]| |]; reflexivity.
Qed.

Lemma update_keeps_heading (g : Game) (rng : Rng) (g' : Game) (rng' : Rng) :
  Game.update (g, rng) = Done (tt, (g', rng')) ->
  direction (snake g') = direction (snake g).
Proof.
  intros H. destruct (update_cases _ _ _ _ H)
    as [(_ & -> & _) | (_ & h & t & _ & _ & Hd & _)]; [reflexivity | exact Hd].
Qed.

Lemma reverses_tail (d : Pos) (l : list Pos) :
  reverses (d :: l) = false -> reverses l = false.
Proof.
  destruct l as [|d2 l]; [reflexivity|]. cbn [reverses].
  intros H. apply orb_false_iff in H. apply H.
Qed.

Lemma run_no_reversal (frames : list (list Event)) :
  Forall (fun evs => (turns evs <= 1)%nat /\ existsb restarts evs = false) frames ->
  forall g rng log w',
    unit_heading (direction (snake g)) ->
    Game.run frames (g, rng) = Done (log, w') ->
    reverses (direction (snake g) :: log) = false.
Proof.
  induction 1 as [|evs frames [Hone Hnore] _ IH]; intros g rng log w' Hunit H.
  - inversion H; reflexivity.
  - rewrite run_cons in H. destruct (game_over g) eqn:Hg.
    + rewrite (handle_events_over evs g rng Hg Hnore) in H. cbv zeta in H.
      cbn [fst] in H. rewrite Hg, (update_over g rng Hg) in H.
      destruct (negb (existsb quits evs)).
      * destruct (Game.run frames (g, rng)) as [[later w3]| |] eqn:Hrest;
          try discriminate.
        inversion H; subst. exact (IH _ _ _ _ Hunit Hrest).
      * inversion H; reflexivity.
    + destruct (handle_events_playing evs g rng Hg) as (d & Hrun & Hd & Hturn & _).
      rewrite Hrun in H. cbv zeta in H.
      cbn [fst set_snake set_direction snake game_over direction] in H.
      rewrite Hg in H.
      assert (Hd_unit : unit_heading d) by (destruct Hd as [-> | Hd]; assumption).
      assert (Hok : pos_eqb d (opposite (direction (snake g))) = false).
      { apply pos_eqb_neq. destruct (Hturn Hone) as [-> | Hne]; [|exact Hne].
        apply unit_heading_not_opposite, Hunit. }
      match type of H with
      | match Game.update ?w1 with _ => _ end = _ =>
          destruct (Game.update w1) as [[[] [g2 rng2]]| |] eqn:Hup; try discriminate
      end.
      apply update_keeps_heading in Hup.
      change (direction (snake g2) = d) in Hup.
      destruct (negb (existsb quits evs)).
      * destruct (Game.run frames (g2, rng2)) as [[later w3]| |] eqn:Hrest;
          try discriminate.
        inversion H; subst log w'. cbn [app reverses]. rewrite Hok. cbn [orb].
        apply IH in Hrest; [|rewrite Hup; exact Hd_unit].
        rewrite Hup in Hrest. exact Hrest.
      * inversion H; subst. cbn [reverses]. rewrite Hok. reflexivity.
Qed.

(** X10. From program start, as long as every frame brings at most one
    key-down event of a direction key, and the restart key is not
    pressed, no move of the run is made with the exact opposite of the
    heading of the move before it. *)
Theorem one_turn_per_frame_never_reverses (frames : list (list Event))
        (rng : Rng) (log : list Pos) (rng' : Rng) :
  Forall (fun evs => (turns evs <= 1)%nat /\ existsb restarts evs = false) frames ->
  main frames rng = Done (log, rng') ->
  reverses log = false.
Proof.
  intros Hframes H. unfold main in H.
  destruct (Game.new rng) as [[g rng1]| |] eqn:Hnew; try discriminate.
  destruct (Game.run frames (g, rng1)) as [[headings [g2 rng2]]| |] eqn:Hrun;
    try discriminate.
  inversion H; subst; clear H.
  apply new_post, reset_post in Hnew. destruct Hnew as (Hs & _).
  apply (reverses_tail (direction (snake g))).
  apply (run_no_reversal frames Hframes g rng1 log (g2, rng') ); [|exact Hrun].
  rewrite Hs. right; right; right; reflexivity.
Qed.

Lemma one_turn_per_frame_never_reverses_witness :
  main [[KEYDOWN K_UP]; [OTHER_EVENT; KEYDOWN K_a]; []; [KEYDOWN K_s; QUIT]] [0; 0; 5; 5]
  = Done ([UP; LEFT; LEFT; DOWN], []) /\
  reverses [UP; LEFT; LEFT; DOWN] = false.
Proof.
  split; [reflexivity|].
  refine (one_turn_per_frame_never_reverses
            [[KEYDOWN K_UP]; [OTHER_EVENT; KEYDOWN K_a]; []; [KEYDOWN K_s; QUIT]]
            [0; 0; 5; 5] _ [] _ eq_refl).
  repeat constructor.
Defined.

(** X11. Once the game is over it stays as it is until the restart key
    arrives: over any frames without that key, [run] makes no move and
    leaves snake, apple, score, game-over flag and random tape unchanged. *)
Theorem game_over_is_frozen (frames : list (list Event)) (g : Game) (rng : Rng) :
  game_over g = true ->
  Forall (fun evs => existsb restarts evs = false) frames ->
  Game.run frames (g, rng) = Done ([], (g, rng)).
Proof.
  intros Hg. induction 1 as [|evs frames Hnore _ IH]; [reflexivity|].
  rewrite run_cons, (handle_events_over evs g rng Hg Hnore). cbv zeta.
  cbn [fst]. rewrite Hg, (update_over g rng Hg), IH.
  destruct (negb (existsb quits evs)); reflexivity.
Qed.

Lemma game_over_is_frozen_witness :
  Game.run [[KEYDOWN K_UP]; []; [KEYDOWN K_d; OTHER_EVENT]]
    (mkGame (mkSnake [(640, 240); (620, 240)] RIGHT false) (mkApple (100, 100)) 1 true,
     [4; 4])
  = Done ([], (mkGame (mkSnake [(640, 240); (620, 240)] RIGHT false)
                      (mkApple (100, 100)) 1 true, [4; 4])).
Proof.
  apply game_over_is_frozen; [reflexivity | repeat constructor].
Defined.

(** ** The apple, again *)

(** X12. When every cell of the board is occupied, [spawn] never returns:
    whatever the random tape holds, the loop is still sampling when the
    tape ends. *)
Theorem spawn_on_full_board_never_returns (occupied : list Pos) (self : Apple)
        (rng : Rng) :
  (forall c, on_grid c -> In c occupied) ->
  Apple.spawn (Some occupied) (self, rng) = NoDraw.
Proof.
  intros Hfull. cbn [Apple.spawn].
  induction rng as [|r|rx ry rest IH] using tape_pair_ind; try reflexivity.
  rewrite spawn_loop_cons.
  rewrite (proj2 (mem_In (sample rx ry) occupied) (Hfull _ (sample_on_grid rx ry))).
  exact IH.
Qed.

Lemma spawn_on_full_board_never_returns_witness :
  Apple.spawn (Some all_cells) (mkApple (0, 0), [5; 7; 100; 3; 8; 8; 31; 23]) = NoDraw.
Proof.
  exact (spawn_on_full_board_never_returns all_cells (mkApple (0, 0))
           [5; 7; 100; 3; 8; 8; 31; 23] on_grid_in_all_cells).
Defined.

(** X13. When [spawn] returns, it has read the tape two draws per sample,
    every sample before the last was in [occupied], the apple is on the
    first sample that was not, and the draws after it are left on the
    tape. *)
Theorem spawn_takes_first_free_sample (occupied : list Pos) (self : Apple)
        (rng : Rng) (self' : Apple) (rng' : Rng) :
  Apple.spawn (Some occupied) (self, rng) = Done (tt, (self', rng')) ->
  exists draws rx ry,
    rng = flatten draws ++ rx :: ry :: rng' /\
    Forall (fun xy => In (sample (fst xy) (snd xy)) occupied) draws /\
    ~ In (sample rx ry) occupied /\
    position self' = sample rx ry.
Proof.
  intros H. cbn [Apple.spawn] in H.
  destruct (spawn_loop_consumes _ _ _ _ H) as (draws & rx & ry & Hrng & Hrej & Hfree & Hpos).
  exists draws, rx, ry. split; [exact Hrng|]. split; [|split].
  - clear Hrng. induction draws as [|[ax ay] draws IH]; [constructor|].
    cbn [rejected] in Hrej. apply andb_true_iff in Hrej as [Hocc Hrej].
    constructor; [apply mem_In, Hocc | exact (IH Hrej)].
  - apply mem_not_In, Hfree.
  - exact Hpos.
Qed.

Lemma spawn_takes_first_free_sample_witness :
  exists draws rx ry,
    [16; 12; 47; 36; 5; 7; 9] = flatten draws ++ rx :: ry :: [9] /\
    Forall (fun xy => In (sample (fst xy) (snd xy)) [(320, 240); (300, 240)]) draws /\
    ~ In (sample rx ry) [(320, 240); (300, 240)] /\
    (100, 140) = sample rx ry.
Proof.
  exact (spawn_takes_first_free_sample [(320, 240); (300, 240)] (mkApple (0, 0))
           [16; 12; 47; 36; 5; 7; 9] (mkApple (100, 140)) [9] eq_refl).
Defined.

(** X14. [Game.reset] forgets everything: its outcome depends neither on
    the game it is called on nor on the two draws with which [Apple()]
    first places the apple, only on the draws that follow them. *)
Theorem reset_forgets (g1 g2 : Game) (r0 r1 q0 q1 : Z) (rng : Rng) :
  Game.reset (g1, r0 :: r1 :: rng) = Game.reset (g2, q0 :: q1 :: rng).
Proof.
  rewrite !reset_run. reflexivity.
Qed.

(** ** The snake, again *)

(** X15. [n] calls of [move] on a snake with no growth pending carry the
    head [n] cells along the heading and leave the length, the heading
    and the growth flag as they were. *)
Theorem moves_carry_head (n : nat) (s : Snake) (h : Pos) (t : list Pos) :
  body s = h :: t -> grow s = false ->
  exists s',
    moves n s = Done (tt, s') /\
    hd_error (body s')
    = Some (fst h + Z.of_nat n * fst (direction s) * CELL_SIZE,
            snd h + Z.of_nat n * snd (direction s) * CELL_SIZE) /\
    length (body s') = length (body s) /\
    direction s' = direction s /\
    grow s' = false.
Proof.
  revert s h t. induction n as [|n IH]; intros [b d gr] h t; cbn [body grow direction].
  - intros -> ->. eexists; split; [reflexivity|]. cbn [body hd_error direction grow].
    repeat split. destruct h as [hx hy]; cbn [fst snd]. f_equal; f_equal; lia.
  - intros -> ->. cbn [moves]. unfold bind. rewrite move_cons.
    destruct (IH (mkSnake (step_from h d :: removelast (h :: t)) d false)
                 (step_from h d) (removelast (h :: t)) eq_refl eq_refl)
      as (s' & Hrun & Hhd & Hlen & Hdir & Hgr).
    exists s'. split; [exact Hrun|]. cbn [body direction grow] in *.
    split; [|split; [|split]]; try assumption.
    + rewrite Hhd. unfold step_from; cbn [fst snd]. f_equal; f_equal; lia.
    + rewrite Hlen. cbn [length]. rewrite removelast_length. reflexivity.
Qed.

Lemma moves_carry_head_witness :
  exists s',
    moves 4 Snake.new = Done (tt, s') /\
    hd_error (body s') = Some (400, 240) /\ length (body s') = 1%nat.
Proof.
  destruct (moves_carry_head 4 Snake.new (320, 240) [] eq_refl eq_refl)
    as (s' & Hrun & Hhd & Hlen & _).
  exists s'. split; [exact Hrun|]. split; [exact Hhd | exact Hlen].
Defined.

(** X16. What [update] leaves alone: the heading never changes, the score
    never goes down and grows by at most 1, a set game-over flag is never
    cleared, and unless the score grows the apple stays where it is and
    the random tape is not read. *)
Theorem update_frame (g : Game) (rng : Rng) (g' : Game) (rng' : Rng) :
  Game.update (g, rng) = Done (tt, (g', rng')) ->
  direction (snake g') = direction (snake g) /\
  (score g' = score g \/ score g' = score g + 1) /\
  (game_over g = true -> game_over g' = true) /\
  (score g' = score g -> apple g' = apple g /\ rng' = rng).
Proof.
  intros H.
  destruct (update_cases _ _ _ _ H)
    as [(Hgo & -> & ->) | (Hgo & h & t & _ & _ & Hd & _ & Heat)].
  - auto.
  - split; [exact Hd|].
    destruct Heat as [(_ & _ & Hsc & _) | (_ & _ & Hsc & Ha & Hr)].
    + split; [right; exact Hsc|]. split; [congruence|]. lia.
    + split; [left; exact Hsc|]. split; [congruence | auto].
Qed.

Lemma update_frame_witness :
  Game.update (mkGame (mkSnake [(80, 100); (60, 100)] UP false)
                      (mkApple (100, 100)) 3 false, [16; 12])
  = Done (tt, (mkGame (mkSnake [(80, 80); (80, 100)] UP false)
                      (mkApple (100, 100)) 3 false, [16; 12])) /\
  (3 = 3 -> mkApple (100, 100) = mkApple (100, 100) /\ [16; 12] = [16; 12]).
Proof.
  split; [reflexivity|].
  exact (proj2 (proj2 (proj2
    (update_frame
       (mkGame (mkSnake [(80, 100); (60, 100)] UP false) (mkApple (100, 100)) 3 false)
       [16; 12]
       (mkGame (mkSnake [(80, 80); (80, 100)] UP false) (mkApple (100, 100)) 3 false)
       [16; 12] eq_refl)))).
Defined.

(** ** Drawing *)

Lemma on_grid_in_window (p : Pos) :
  on_grid p -> in_window (fst p, snd p, CELL_SIZE, CELL_SIZE).
Proof.
  destruct p as [x y]. unfold on_grid, in_window; cbn [fst snd].
  unfold CELL_SIZE, WINDOW_WIDTH, WINDOW_HEIGHT. intros (Hx & Hy & Bx & By).
  pose proof (Z.div_mod x 20 ltac:(lia)) as Dx.
  pose proof (Z.div_mod y 20 ltac:(lia)) as Dy.
  rewrite Hx in Dx. rewrite Hy in Dy. lia.
Qed.

(** The squares among the calls of [Game.draw]. *)
Lemma draw_rects (g : Game) (c : Screen.Color) (r : Screen.Rect) :
  In (Screen.DrawRect c r) (Game.draw g) <->
  (c = GREEN /\ exists p, In p (body (snake g)) /\
                          r = (fst p, snd p, CELL_SIZE, CELL_SIZE)) \/
  (c = RED /\ r = (fst (position (apple g)), snd (position (apple g)),
                   CELL_SIZE, CELL_SIZE)).
Proof.
  unfold Game.draw, Snake.draw, Apple.draw.
  rewrite !in_app_iff, in_map_iff. split.
  - intros [[H | []] | [(p & Hp & Hin) | [[H | []] | [[H | []] | [H | [H | []]]]]]];
      try discriminate.
    + left. inversion Hp; subst. split; [reflexivity|]. exists p. auto.
    + right. inversion H; subst. auto.
    + destruct (game_over g); [|destruct H].
      destruct H as [H | [H | []]]; discriminate.
  - intros [(-> & p & Hin & ->) | (-> & ->)].
    + right; left. exists p. auto.
    + right; right; left. left. reflexivity.
Qed.

(** X17. In every reachable game that is not over, every square that
    [Game.draw] draws, for the snake and for the apple, is a cell-sized
    square that lies inside the window; the apple's square does so even
    when the game is over. *)
Theorem draw_stays_in_window (g : Game) (c : Screen.Color) (r : Screen.Rect) :
  reachable g ->
  In (Screen.DrawRect c r) (Game.draw g) ->
  game_over g = false \/ c = RED ->
  in_window r /\ snd (fst r) = CELL_SIZE /\ snd r = CELL_SIZE.
Proof.
  intros Hreach Hin Hcase.
  pose proof (reachable_well_formed g Hreach) as (_ & _ & Happle & _ & _ & Hplay).
  apply draw_rects in Hin.
  destruct Hin as [(-> & p & Hp & ->) | (-> & ->)].
  - destruct Hcase as [Hgo | Hc]; [|discriminate].
    destruct (Hplay Hgo) as [Hgrid _]. rewrite Forall_forall in Hgrid.
    split; [apply on_grid_in_window, Hgrid, Hp | split; reflexivity].
  - split; [apply on_grid_in_window, Happle | split; reflexivity].
Qed.

Lemma draw_stays_in_window_witness :
  In (Screen.DrawRect GREEN (340, 240, 20, 20))
     (Game.draw (mkGame (mkSnake [(360, 240); (340, 240)] RIGHT false)
                        (mkApple (40, 40)) 1 false)) /\
  in_window (340, 240, 20, 20).
Proof.
  assert (Hin : In (Screen.DrawRect GREEN (340, 240, 20, 20))
                   (Game.draw (mkGame (mkSnake [(360, 240); (340, 240)] RIGHT false)
                                      (mkApple (40, 40)) 1 false)))
    by (right; right; left; reflexivity).
  split; [exact Hin|].
  exact (proj1 (draw_stays_in_window _ GREEN (340, 240, 20, 20)
                  reachable_two_cells Hin (or_introl eq_refl))).
Defined.

(** X18. In every reachable game the red square of the apple is not the
    square of any body cell: [Game.draw], which draws the apple after the
    snake, never paints the apple over the snake. *)
Theorem draw_apple_beside_snake (g : Game) (r : Screen.Rect) :
  reachable g ->
  In (Screen.DrawRect RED r) (Game.draw g) ->
  ~ In (Screen.DrawRect GREEN r) (Game.draw g).
Proof.
  intros Hreach Hred Hgreen.
  pose proof (reachable_apple_off_snake g Hreach) as Hoff.
  apply draw_rects in Hred. apply draw_rects in Hgreen.
  destruct Hred as [(Hc & _) | (_ & ->)]; [discriminate|].
  destruct Hgreen as [(_ & p & Hp & Hr) | (Hc & _)]; [|discriminate].
  apply Hoff. destruct p as [px py], (position (apple g)) as [ax ay].
  cbn [fst snd] in Hr. inversion Hr; subst. exact Hp.
Qed.

Lemma draw_apple_beside_snake_witness :
  ~ In (Screen.DrawRect GREEN (40, 40, 20, 20))
       (Game.draw (mkGame (mkSnake [(360, 240); (340, 240)] RIGHT false)
                          (mkApple (40, 40)) 1 false)).
Proof.
  apply (draw_apple_beside_snake _ (40, 40, 20, 20) reachable_two_cells).
  right; right; right; left. reflexivity.
Defined.

(** ** The game-over flag *)

Lemma check_collision_body (s : Snake) :
  body s <> [] ->
  Snake.check_collision s
  = Done (match body s with
          | [] => false
          | h :: t => off_boardb h || mem h t
          end, s).
Proof.
  destruct s as [[|h t] d gr]; cbn [body]; [contradiction|].
  intros _. apply check_collision_cons.
Qed.

(** X19. In every reachable game the game-over flag is what
    [check_collision] answers on the snake as it is: the flag is set
    exactly when the head is off the board or on another body cell. *)
Theorem game_over_is_collision (g : Game) :
  reachable g ->
  Snake.check_collision (snake g) = Done (game_over g, snake g).
Proof.
  revert g. apply reachable_invariant.
  - intros g rng g' rng' H. destruct (reset_post _ _ _ _ H) as (-> & _ & -> & _).
    reflexivity.
  - intros [[b d0 gr] a sc go] d H _.
    cbv [set_snake set_direction snake game_over body direction grow] in *.
    destruct b as [|h t]; [discriminate|].
    rewrite check_collision_cons in *. injection H as Hgo. rewrite Hgo. reflexivity.
  - intros g rng g' rng' Hinv H.
    destruct (update_cases _ _ _ _ H)
      as [(_ & -> & _) | (_ & h & t & _ & Hb & _ & Hgo & _)]; [exact Hinv|].
    cbv zeta in *. rewrite check_collision_body by (rewrite Hb; discriminate).
    rewrite Hb, Hgo. reflexivity.
Qed.

Lemma game_over_is_collision_witness :
  Snake.check_collision (mkSnake [(360, 240); (340, 240)] RIGHT false)
  = Done (false, mkSnake [(360, 240); (340, 240)] RIGHT false).
Proof.
  exact (game_over_is_collision _ reachable_two_cells).
Defined.

(** ** The full board *)

Lemma follow_tour_reachable (n : nat) :
  forall c g rng w',
    reachable g ->
    follow_tour n c (g, rng) = Done (tt, w') ->
    reachable (fst w').
Proof.
  induction n as [|n IH]; intros c g rng w' Hreach H; cbn [follow_tour] in H.
  - inversion H; subst. exact Hreach.
  - cbv zeta in H.
    destruct (Game.handle_events _ (g, rng)) as [[running [g1 rng1]]| |] eqn:Hev;
      try discriminate.
    match type of H with
    | match Game.update ?w1 with _ => _ end = _ =>
        destruct (Game.update w1) as [[[] [g2 rng2]]| |] eqn:Hup; try discriminate
    end.
    apply (IH (tour_next c) g2 rng2 w'); [|exact H].
    exact (reach_update _ _ _ _ (reach_events _ _ _ _ _ _ Hreach Hev) Hup).
Qed.

Lemma spawn_loop_full (occupied : list Pos) (rng : Rng) :
  (forall c, on_grid c -> In c occupied) ->
  Apple.spawn_loop occupied rng = NoDraw.
Proof.
  intros Hfull.
  induction rng as [|r|rx ry rest IH] using tape_pair_ind; try reflexivity.
  rewrite spawn_loop_cons.
  rewrite (proj2 (mem_In (sample rx ry) occupied) (Hfull _ (sample_on_grid rx ry))).
  exact IH.
Qed.

Lemma fills_board_stuck (g : Game) (rng : Rng) :
  fills_board g = true -> Game.update (g, rng) = NoDraw.
Proof.
  destruct g as [[b d gr] a sc go]. unfold fills_board.
  cbn [snake apple game_over body direction grow position].
  intros H. apply andb_true_iff in H as [H Hb].
  apply andb_true_iff in H as [Hgo Hgr]. apply negb_true_iff in Hgo.
  subst go gr. destruct b as [|h t]; [discriminate|].
  apply andb_true_iff in Hb as [Heat Hall].
  rewrite update_playing. cbv zeta. rewrite Heat, spawn_loop_full; [reflexivity|].
  intros c Hc. rewrite forallb_forall in Hall.
  apply mem_In, Hall, on_grid_in_all_cells, Hc.
Qed.

Lemma full_board_game_run : full_board_game = Done (tt, (full_game, [])).
Proof. vm_compute. reflexivity. Qed.

Lemma tour_reachable (w : World) :
  full_board_game = Done (tt, w) -> reachable (fst w).
Proof.
  unfold full_board_game.
  destruct (Game.new [0; 0; 17; 12]) as [[g0 rng0]| |] eqn:Hnew.
  - intros H. exact (follow_tour_reachable _ _ _ _ _ (reach_new _ _ _ Hnew) H).
  - intros H. inversion H.
  - intros H. inversion H.
Qed.

Lemma full_game_reachable : reachable full_game.
Proof.
  exact (tour_reachable (full_game, []) full_board_game_run).
Qed.

Lemma full_game_fills_board : fills_board full_game = true.
Proof. vm_compute. reflexivity. Qed.

(** C10 (as stated, fails). A player who follows the tour and finds each
    new apple on the next cell of it reaches a game that is not over, with
    767 body cells, growth pending and the apple on the last free cell,
    straight ahead.  The next [update] moves the head onto the apple, the
    body then covers the whole board, and the respawn never returns,
    whatever the random tape holds: [update] is not total on reachable
    games. *)
Lemma update_stuck_on_full_board :
  reachable full_game /\
  game_over full_game = false /\
  length (body (snake full_game)) = 767%nat /\
  (forall rng, Game.update (full_game, rng) = NoDraw) /\
  ~ (forall g, reachable g -> exists rng, returns (Game.update (g, rng))).
Proof.
  assert (Hstuck : forall rng, Game.update (full_game, rng) = NoDraw).
  { intros rng. apply fills_board_stuck. exact full_game_fills_board. }
  split; [exact full_game_reachable|].
  split; [vm_compute; reflexivity|].
  split; [vm_compute; reflexivity|]. split; [exact Hstuck|].
  intros Htotal. destruct (Htotal full_game full_game_reachable) as [rng Hret].
  rewrite Hstuck in Hret. exact (not_returns_NoDraw Hret).
Qed.
